(** * Page-range parser of the PDF splitter

    A shallow embedding of [parseRanges] (src/components/PDFSplitter.tsx,
    lines 89-140), of its callers [validateRanges] and [handleRangeChange],
    and of the JavaScript built-ins it relies on ([String.prototype.trim],
    [split], [includes], [parseInt], [isNaN], number comparison and
    number-to-string conversion).

    Modelling conventions.
    - A JavaScript string is the list of its UTF-16 code units, each a [Z].
    - A JavaScript number that comes out of [parseInt] is [NaN], an
      infinity or an integer-valued double; it is modelled by the type
      [number] below.  [parseInt] rounds the integer it reads to the
      nearest double ([to_double]): integers up to 2^53 are kept, larger
      ones are rounded to 53 significant bits, and from 2^1024 on the
      result is an infinity.  The page count [totalPages] is an integer.
    - [throw new Error(msg)] is modelled by the [Throw] constructor of
      [result]; the error value records which message template was used and
      the values interpolated into it. *)

From Stdlib Require Import ZArith List Lia Bool Ascii String.
Import ListNotations.
Open Scope Z_scope.

(** ** JavaScript strings and numbers *)

Module JS.

Definition jsstring := list Z.

(** String literal: the code units of an ASCII Rocq string. *)
Definition lit (s : string) : jsstring :=
  map (fun a => Z.of_N (N_of_ascii a)) (list_ascii_of_string s).

Definition comma : Z := 44.
Definition dash : Z := 45.
Definition plus : Z := 43.

(** WhiteSpace and LineTerminator code points of ECMAScript, the characters
    removed by [trim] and skipped by [parseInt]. *)
Definition is_ws (c : Z) : bool :=
  ((9 <=? c) && (c <=? 13))
  || (c =? 32) || (c =? 160) || (c =? 5760)
  || ((8192 <=? c) && (c <=? 8202))
  || (c =? 8232) || (c =? 8233) || (c =? 8239) || (c =? 8287)
  || (c =? 12288) || (c =? 65279).

Fixpoint trimStart (s : jsstring) : jsstring :=
  match s with
  | [] => []
  | c :: r => if is_ws c then trimStart r else s
  end.

Definition trimEnd (s : jsstring) : jsstring := rev (trimStart (rev s)).

Definition trim (s : jsstring) : jsstring := trimEnd (trimStart s).

(** [s.split(sep)] for a separator of one code unit. *)
Fixpoint split (sep : Z) (s : jsstring) : list jsstring :=
  match s with
  | [] => [[]]
  | c :: r =>
      if c =? sep then [] :: split sep r
      else match split sep r with
           | [] => [[c]]
           | t :: ts => (c :: t) :: ts
           end
  end.

(** [s.includes(c)] for a one-code-unit needle. *)
Definition includes (c : Z) (s : jsstring) : bool := existsb (Z.eqb c) s.

(** The Number values that occur here: NaN, the integer-valued doubles and
    the two infinities. *)
Inductive number := NaN | Int (n : Z) | PosInf | NegInf.

Definition isNaN (x : number) : bool :=
  match x with NaN => true | _ => false end.

(** [x < y] and [x > y]: false as soon as one side is NaN. *)
Definition lt (x y : number) : bool :=
  match x, y with
  | Int a, Int b => a <? b
  | NegInf, Int _ | NegInf, PosInf | Int _, PosInf => true
  | _, _ => false
  end.

Definition gt (x y : number) : bool :=
  match x, y with
  | Int a, Int b => b <? a
  | PosInf, Int _ | PosInf, NegInf | Int _, NegInf => true
  | _, _ => false
  end.

(** The double nearest to the integer [n], ties to the even significand:
    below 2^53 every integer is a double; above, the significand keeps 53
    bits and [e] bits are rounded away; a result of 2^1024 or more is an
    infinity. *)
Definition to_double (n : Z) : number :=
  let m := Z.abs n in
  if m <? 2 ^ 53 then Int n
  else
    let e := Z.log2 m - 52 in
    let q := m / 2 ^ e in
    let r := m mod 2 ^ e in
    let half := 2 ^ (e - 1) in
    let q' := if r <? half then q
              else if half <? r then q + 1
              else if Z.even q then q else q + 1 in
    let v := q' * 2 ^ e in
    if 2 ^ 1024 <=? v then (if n <? 0 then NegInf else PosInf)
    else Int (Z.sgn n * v).

(** Value of a code unit as a digit in radix [R] (0-9, a-z, A-Z). *)
Definition digit_val (R c : Z) : option Z :=
  let v := if (48 <=? c) && (c <=? 57) then Some (c - 48)
           else if (97 <=? c) && (c <=? 122) then Some (c - 87)
           else if (65 <=? c) && (c <=? 90) then Some (c - 55)
           else None in
  match v with
  | Some d => if d <? R then Some d else None
  | None => None
  end.

(** The digits of the longest prefix of [s] made of radix-[R] digits. *)
Fixpoint digit_prefix (R : Z) (s : jsstring) : list Z :=
  match s with
  | [] => []
  | c :: r => match digit_val R c with
              | Some d => d :: digit_prefix R r
              | None => []
              end
  end.

Definition mathInt (R : Z) (ds : list Z) : Z :=
  fold_left (fun a d => a * R + d) ds 0.

(** Sign handling of [parseInt]: steps 3-5 of the ECMAScript algorithm. *)
Definition strip_sign (s : jsstring) : Z * jsstring :=
  match s with
  | c :: r => if c =? dash then (-1, r)
              else if c =? plus then (1, r)
              else (1, s)
  | [] => (1, s)
  end.

(** Radix detection of [parseInt] called without a radix: a leading
    [0x] or [0X] selects radix 16, anything else radix 10. *)
Definition strip_radix (s : jsstring) : Z * jsstring :=
  match s with
  | c :: x :: r =>
      if (c =? 48) && ((x =? 120) || (x =? 88)) then (16, r) else (10, s)
  | _ => (10, s)
  end.

(** [parseInt(s)] with no radix argument: the integer written by the
    digits, with its sign, as a Number; the negative zero is not told
    apart from zero, which no test of the parser does either.  (ECMAScript
    also lets an implementation replace the decimal digits after the
    twentieth by zeros before rounding; the model rounds the integer as
    written.) *)
Definition parseInt (s : jsstring) : number :=
  let '(sign, s1) := strip_sign (trimStart s) in
  let '(R, s2) := strip_radix s1 in
  match digit_prefix R s2 with
  | [] => NaN
  | ds => to_double (sign * mathInt R ds)
  end.

(** Decimal digits of a non-negative integer, most significant first. *)
Fixpoint decimal_aux (fuel : nat) (n : Z) (acc : jsstring) : jsstring :=
  match fuel with
  | O => acc
  | S f =>
      let acc' := (48 + n mod 10) :: acc in
      if n <? 10 then acc' else decimal_aux f (n / 10) acc'
  end.

Definition decimal (n : Z) : jsstring :=
  decimal_aux (S (Z.to_nat (Z.log2 n))) n [].

(** [String(n)] for an integer [n] (magnitude below 10^21). *)
Definition toString (n : Z) : jsstring :=
  if n <? 0 then dash :: decimal (- n) else decimal n.

End JS.

Import JS.

(** ** The parser *)

(** The errors thrown by [parseRanges], one constructor per message
    template, with the interpolated values. *)
Inductive Error :=
| NoRanges
    (* 'Debes especificar al menos un rango o pagina.' *)
| InvalidRange (part : jsstring)
    (* `Rango invalido: "${part}". Usa formato como "1-3".` *)
| NotPositive (part : jsstring)
    (* `Las paginas deben ser numeros positivos. Error en: "${part}".` *)
| RangeTooLarge (totalPages : Z) (part : jsstring)
    (* `Las paginas no pueden ser mayores a ${totalPages}. Error en: "${part}".` *)
| RangeInverted (part : jsstring)
    (* `El inicio del rango no puede ser mayor al final. Error en: "${part}".` *)
| InvalidPage (part : jsstring)
    (* `Pagina invalida: "${part}". Debe ser un numero.` *)
| PageMissing (page : number) (totalPages : Z).
    (* `La pagina ${page} no existe. El PDF tiene ${totalPages} paginas.` *)

Inductive result (A : Type) :=
| Ok (a : A)
| Throw (e : Error).

Arguments Ok {A} a.
Arguments Throw {A} e.

Definition bind {A B} (m : result A) (k : A -> result B) : result B :=
  match m with
  | Ok a => k a
  | Throw e => Throw e
  end.

(** An element of the [number[][]] result: the array [[start, end]]. *)
Definition interval : Type := number * number.

(** Array destructuring [const [start, end] = nums]: a missing element is
    [undefined], for which [isNaN] is true; the first test performed on
    both values is [isNaN], so [undefined] is represented by [NaN]. *)
Definition elem (i : nat) (nums : list number) : number := nth i nums NaN.

(** Body of the [for (const part of parts)] loop. *)
Definition parsePart (totalPages : Z) (part : jsstring) : result interval :=
  if includes dash part then
    let nums := map (fun num => parseInt (trim num)) (split dash part) in
    let start := elem 0 nums in
    let end_ := elem 1 nums in
    if isNaN start || isNaN end_ then Throw (InvalidRange part)
    else if lt start (Int 1) || lt end_ (Int 1) then Throw (NotPositive part)
    else if gt start (Int totalPages) || gt end_ (Int totalPages)
      then Throw (RangeTooLarge totalPages part)
    else if gt start end_ then Throw (RangeInverted part)
    else Ok (start, end_)
  else
    let page := parseInt part in
    if isNaN page then Throw (InvalidPage part)
    else if lt page (Int 1) then Throw (NotPositive part)
    else if gt page (Int totalPages) then Throw (PageMissing page totalPages)
    else Ok (page, page).

(** The loop itself: [ranges] is the array built so far. *)
Fixpoint parseParts (totalPages : Z) (parts : list jsstring)
    (ranges : list interval) : result (list interval) :=
  match parts with
  | [] => Ok ranges
  | part :: rest =>
      bind (parsePart totalPages part)
        (fun r => parseParts totalPages rest (ranges ++ [r]))
  end.

Definition parseRanges (totalPages : Z) (rangeString : jsstring)
    : result (list interval) :=
  match trim rangeString with
  | [] => Throw NoRanges
  | _ :: _ =>
      let parts := map trim (split comma rangeString) in
      parseParts totalPages parts []
  end.

(** ** The callers: component state *)

(** The part of the component state read and written around the parser.
    [rangeError = None] stands for the empty message. *)
Record State := mkState {
  totalPages : Z;
  splitRanges : jsstring;
  rangeError : option Error
}.

Definition setRangeError (e : option Error) (st : State) : State :=
  mkState (totalPages st) (splitRanges st) e.

Definition setSplitRanges (v : jsstring) (st : State) : State :=
  mkState (totalPages st) v (rangeError st).

(** [validateRanges]: the new state and the boolean returned. *)
Definition validateRanges (rangeString : jsstring) (st : State)
    : State * bool :=
  match parseRanges (totalPages st) rangeString with
  | Ok _ => (setRangeError None st, true)
  | Throw e => (setRangeError (Some e) st, false)
  end.

Definition handleRangeChange (value : jsstring) (st : State) : State :=
  let st := setSplitRanges value st in
  match trim value with
  | _ :: _ =>
      if 0 <? totalPages st then fst (validateRanges value st)
      else setRangeError None st
  | [] => setRangeError None st
  end.

(** ** The error taxonomy and the validation rules of the specification *)

Inductive Kind :=
| EmptyInput
| MalformedToken
| NonPositivePage
| PageOutOfBounds
| InvertedRange.

(** The kind of each message thrown by [parseRanges]. *)
Definition kind (e : Error) : Kind :=
  match e with
  | NoRanges => EmptyInput
  | InvalidRange _ | InvalidPage _ => MalformedToken
  | NotPositive _ => NonPositivePage
  | RangeTooLarge _ _ | PageMissing _ _ => PageOutOfBounds
  | RangeInverted _ => InvertedRange
  end.

(** The token text interpolated into the message, when there is one. *)
Definition error_token (e : Error) : option jsstring :=
  match e with
  | NoRanges | PageMissing _ _ => None
  | InvalidRange p | InvalidPage p | NotPositive p
  | RangeTooLarge _ p | RangeInverted p => Some p
  end.

(** The numbers a trimmed token denotes: both sides of the first [-] for a
    range, the whole token for a single page. *)
Definition numbers (part : jsstring) : list number :=
  if includes dash part then
    let nums := map (fun num => parseInt (trim num)) (split dash part) in
    [elem 0 nums; elem 1 nums]
  else [parseInt part].

Definition le (x y : number) : bool :=
  match x, y with
  | Int a, Int b => a <=? b
  | NaN, _ | _, NaN => false
  | NegInf, _ | _, PosInf => true
  | _, _ => false
  end.

(** Rule 1, numeric well-formedness. *)
Definition wellFormed (part : jsstring) : bool :=
  forallb (fun x => negb (isNaN x)) (numbers part).

(** Rule 2, positivity: all numbers are at least 1. *)
Definition allPositive (part : jsstring) : bool :=
  forallb (fun x => le (Int 1) x) (numbers part).

(** Rule 3, upper bound: all numbers are at most [totalPages]. *)
Definition allBounded (totalPages : Z) (part : jsstring) : bool :=
  forallb (fun x => le x (Int totalPages)) (numbers part).

(** Rule 4, range ordering: start is at most end. *)
Definition ordered (part : jsstring) : bool :=
  match numbers part with
  | [a; b] => le a b
  | _ => true
  end.

(** The first rule a trimmed token violates, in the order 1, 2, 3, 4. *)
Definition first_violation (totalPages : Z) (part : jsstring)
    : option Kind :=
  if negb (wellFormed part) then Some MalformedToken
  else if negb (allPositive part) then Some NonPositivePage
  else if negb (allBounded totalPages part) then Some PageOutOfBounds
  else if negb (ordered part) then Some InvertedRange
  else None.

(** The interval a trimmed token stands for. *)
Definition token_interval (part : jsstring) : interval :=
  match numbers part with
  | [a; b] => (a, b)
  | [a] => (a, a)
  | _ => (NaN, NaN)
  end.

(** How an error thrown for a trimmed token refers to it: every message
    interpolates the token, except the one for a single page above the page
    count, which interpolates the parsed page number. *)
Definition blames (totalPages : Z) (e : Error) (part : jsstring) : Prop :=
  error_token e = Some part
  \/ (includes dash part = false /\ e = PageMissing (parseInt part) totalPages).

(** A token passes validation when its trimmed text violates no rule. *)
Definition valid_token (totalPages : Z) (tok : jsstring) : Prop :=
  first_violation totalPages (trim tok) = None.


(** ** Vocabulary of the statements *)

Definition is_dec_digit (c : Z) : bool := (48 <=? c) && (c <=? 57).

(** The text starts with [0x] or [0X]. *)
Definition has_hex_prefix (s : jsstring) : bool :=
  match s with
  | c :: x :: _ => (c =? 48) && ((x =? 120) || (x =? 88))
  | _ => false
  end.

(** The digit characters of a list of decimal digits. *)
Definition chars (ds : list Z) : jsstring := map (fun d => 48 + d) ds.

Definition is_digit (d : Z) : Prop := 0 <= d < 10.

(** The rest of a text does not continue a decimal numeral. *)
Definition stops (rest : jsstring) : Prop :=
  match rest with
  | [] => True
  | c :: _ => is_dec_digit c = false
  end.

Definition all_ws (s : jsstring) : Prop := forallb is_ws s = true.

(** A text that is not empty and neither starts nor ends with white
    space. *)
Definition tight (s : jsstring) : Prop :=
  s <> [] /\ is_ws (hd 0 s) = false /\ is_ws (last s 0) = false.

(** A token as the user means it: a page or an inclusive range. *)
Inductive Token :=
| Page (n : Z)
| Range (a b : Z).

Definition render (t : Token) : jsstring :=
  match t with
  | Page n => toString n
  | Range a b => toString a ++ dash :: toString b
  end.

Definition denote (t : Token) : interval :=
  match t with
  | Page n => (Int n, Int n)
  | Range a b => (Int a, Int b)
  end.

Definition in_document (totalPages : Z) (t : Token) : Prop :=
  match t with
  | Page n => 1 <= n <= totalPages
  | Range a b => 1 <= a /\ a <= b /\ b <= totalPages
  end.

(** [xs.join(sep)]. *)
Fixpoint join (sep : jsstring) (xs : list jsstring) : jsstring :=
  match xs with
  | [] => []
  | x :: rest =>
      match rest with
      | [] => x
      | _ :: _ => x ++ sep ++ join sep rest
      end
  end.

(** ** The rest of the splitter: output documents and size labels

    [splitPDF] (lines 162-207) is modelled up to the calls into the
    browser and the PDF library: an output document is represented by the
    zero-based page indices handed to [copyPages], its name and its page
    label; the random [id] is left out.  Whether those calls succeed is an
    input of the model. *)

Definition str_eqb (a b : jsstring) : bool :=
  if list_eq_dec Z.eq_dec a b then true else false.

(** [s.startsWith(pat)]. *)
Fixpoint starts_with (pat s : jsstring) : bool :=
  match pat, s with
  | [], _ => true
  | p :: ps, c :: cs => (p =? c) && starts_with ps cs
  | _ :: _, [] => false
  end.

(** [s.replace(pat, '')] for a string pattern: the first occurrence of
    [pat] is removed. *)
Fixpoint remove_first (pat s : jsstring) : jsstring :=
  match s with
  | [] => []
  | c :: r =>
      if starts_with pat s then skipn (List.length pat) s
      else c :: remove_first pat r
  end.

(** A number interpolated into a template literal. *)
Definition number_toString (x : number) : jsstring :=
  match x with
  | NaN => lit "NaN"
  | Int n => toString n
  | PosInf => lit "Infinity"
  | NegInf => lit "-Infinity"
  end.

(** [x === y] on numbers: false as soon as one side is NaN. *)
Definition strict_eq (x y : number) : bool :=
  match x, y with
  | Int a, Int b => a =? b
  | PosInf, PosInf | NegInf, NegInf => true
  | _, _ => false
  end.

(** The browser's [File]: name, MIME type and size in bytes. *)
Record File := mkFile {
  file_name : jsstring;
  file_type : jsstring;
  file_size : Z
}.

Record SplitPDF := mkSplitPDF {
  sp_name : jsstring;
  sp_indices : list Z;
  sp_pages : jsstring
}.

(** [for (let pageNum = startPage; pageNum <= endPage; pageNum++)
       pageIndices.push(pageNum - 1)]; [fuel] bounds the iterations. *)
Fixpoint pageIndices_loop (fuel : nat) (pageNum endPage : Z)
    (pageIndices : list Z) : list Z :=
  match fuel with
  | O => pageIndices
  | S f =>
      if pageNum <=? endPage
      then pageIndices_loop f (pageNum + 1) endPage
             (pageIndices ++ [pageNum - 1])
      else pageIndices
  end.

(** The loop run with as many steps as there are pages from [startPage] to
    [endPage]; a comparison with NaN is false, so the loop body never runs
    then.  With an infinite bound the loop of the source either does not
    run or does not end; [parseRanges] returns finite bounds only, and the
    model gives the empty list for the others. *)
Definition pageIndices (startPage endPage : number) : list Z :=
  match startPage, endPage with
  | Int a, Int b => pageIndices_loop (Z.to_nat (b + 1 - a)) a b []
  | _, _ => []
  end.

(** [pagesDescription]; the code unit 225 is the accented a. *)
Definition pagesDescription (startPage endPage : number) : jsstring :=
  if strict_eq startPage endPage
  then lit "p" ++ [225] ++ lit "gina " ++ number_toString startPage
  else lit "p" ++ [225] ++ lit "ginas " ++ number_toString startPage
         ++ lit "-" ++ number_toString endPage.

(** One iteration of the loop over [ranges] in [splitPDF]. *)
Definition splitOne (selectedFile : File) (range : interval) : SplitPDF :=
  let '(startPage, endPage) := range in
  mkSplitPDF
    (remove_first (lit ".pdf") (file_name selectedFile) ++ lit "_"
       ++ pagesDescription startPage endPage ++ lit ".pdf")
    (pageIndices startPage endPage)
    (pagesDescription startPage endPage).

(** [splitPDF]: the new state and the value passed to [setSplitPDFs], if
    it is called.  [library_ok] tells whether the calls made inside [try]
    ([arrayBuffer], [load], [create], [copyPages], [save]) all succeed;
    when one of them throws, the [catch] block reports it and
    [setSplitPDFs] is not called. *)
Definition splitPDF (selectedFile : option File) (library_ok : bool)
    (st : State) : State * option (list SplitPDF) :=
  match selectedFile with
  | None => (st, None)
  | Some file =>
      let '(st1, ok) := validateRanges (splitRanges st) st in
      if ok then
        if library_ok then
          match parseRanges (totalPages st) (splitRanges st) with
          | Ok ranges => (st1, Some (map (splitOne file) ranges))
          | Throw _ => (st1, None)
          end
        else (st1, None)
      else (st1, None)
  end.

(** [(num / den).toFixed(1)] for [num >= 0] and [den] a power of two: the
    quotient is then exact, and [toFixed] rounds it to the nearest tenth,
    upwards on a tie; [n] is the number of tenths. *)
Definition tenths (num den : Z) : Z := (20 * num + den) / (2 * den).

Definition toFixed1 (num den : Z) : jsstring :=
  let n := tenths num den in
  toString (n / 10) ++ lit "." ++ toString (n mod 10).

Definition formatFileSize (bytes : Z) : jsstring :=
  if bytes <? 1024 then toString bytes ++ lit " B"
  else if bytes <? 1024 * 1024 then toFixed1 bytes 1024 ++ lit " KB"
  else toFixed1 bytes (1024 * 1024) ++ lit " MB".

(** ** The compressor: file selection *)

(** An entry of the list of files, with the fields read by the functions
    modelled here. *)
Record PDFFile := mkPDFFile {
  pf_id : jsstring;
  pf_file : File;
  pf_name : jsstring;
  originalSize : Z;
  compressedSize : option Z;
  preview : option jsstring
}.

(** The calls to [alert] made by [validateFiles]. *)
Inductive Alert :=
| NotPdf (name : jsstring)
| AlreadyListed (name : jsstring)
| LimitExceeded.

Definition maxTotalSize : Z := 500 * 1024 * 1024.

Definition pdf_type : jsstring := lit "application/pdf".

(** [files.some(existingFile => existingFile.name === file.name &&
    existingFile.originalSize === file.size)]. *)
Definition already_listed (files : list PDFFile) (file : File) : bool :=
  existsb (fun existingFile =>
             str_eqb (pf_name existingFile) (file_name file)
             && (originalSize existingFile =? file_size file)) files.

(** [files.reduce((sum, file) => sum + file.originalSize, 0)]. *)
Definition totalOriginalSize (files : list PDFFile) : Z :=
  fold_left (fun sum file => sum + originalSize file) files 0.

(** The loop of [validateFiles]; [continue] goes on with the rest, [break]
    returns what has been collected. *)
Fixpoint validateFiles_loop (files : list PDFFile) (selected : list File)
    (totalSize : Z) (validFiles : list File) (alerts : list Alert)
    : list File * list Alert :=
  match selected with
  | [] => (validFiles, alerts)
  | file :: rest =>
      if negb (str_eqb (file_type file) pdf_type) then
        validateFiles_loop files rest totalSize validFiles
          (alerts ++ [NotPdf (file_name file)])
      else if already_listed files file then
        validateFiles_loop files rest totalSize validFiles
          (alerts ++ [AlreadyListed (file_name file)])
      else if maxTotalSize <? totalSize + file_size file then
        (validFiles, alerts ++ [LimitExceeded])
      else
        validateFiles_loop files rest (totalSize + file_size file)
          (validFiles ++ [file]) alerts
  end.

Definition validateFiles (files : list PDFFile) (selectedFiles : list File)
    : list File * list Alert :=
  validateFiles_loop files selectedFiles (totalOriginalSize files) [] [].

(** The entry built by [handleFileSelect] for an accepted file; [id] and
    [preview] come from the random generator and from the renderer. *)
Definition newPDFFile (id : jsstring) (preview : option jsstring)
    (file : File) : PDFFile :=
  mkPDFFile id file (remove_first (lit ".pdf") (file_name file))
    (file_size file) None preview.

(** Appending [r] to the last text of a list. *)
Fixpoint app_last (r : jsstring) (ts : list jsstring) : list jsstring :=
  match ts with
  | [] => []
  | t :: rest =>
      match rest with
      | [] => [t ++ r]
      | _ :: _ => t :: app_last r rest
      end
  end.

(** [s.includes(pat)] for a string pattern. *)
Fixpoint contains (pat s : jsstring) : bool :=
  match s with
  | [] => starts_with pat []
  | _ :: r => starts_with pat s || contains pat r
  end.

(** A selected file that passes the type test and the duplicate test of
    [validateFiles]. *)
Definition acceptable (files : list PDFFile) (file : File) : bool :=
  str_eqb (file_type file) pdf_type && negb (already_listed files file).

(** The sum of the sizes of a list of selected files. *)
Definition total_size (l : list File) : Z :=
  fold_right (fun file sum => file_size file + sum) 0 l.

(** An entry built by [handleFileSelect] from an accepted file. *)
Definition built_from (file : File) (entry : PDFFile) : Prop :=
  exists id preview, entry = newPDFFile id preview file.

(** What the single-page branch does with a page number that is not NaN. *)
Definition page_outcome (totalPages : Z) (part : jsstring) (page : number)
    : result interval :=
  if lt page (Int 1) then Throw (NotPositive part)
  else if gt page (Int totalPages) then Throw (PageMissing page totalPages)
  else Ok (page, page).

(** ** Properties of the string operations *)

Section StringLemmas.

Lemma split_not_nil (sep : Z) (s : jsstring) : split sep s <> [].
Proof.
  destruct s as [|c r]; simpl; [discriminate|].
  destruct (c =? sep); [discriminate|].
  destruct (split sep r); discriminate.
Qed.

Lemma split_no_sep (sep : Z) (s : jsstring) :
  includes sep s = false -> split sep s = [s].
Proof.
  unfold includes.
  induction s as [|c r IH]; simpl; intros H; [reflexivity|].
  apply orb_false_elim in H as [Hc Hr].
  rewrite Z.eqb_sym, Hc, (IH Hr). reflexivity.
Qed.

Lemma split_app (sep : Z) (p r : jsstring) :
  includes sep p = false ->
  split sep (p ++ sep :: r) = p :: split sep r.
Proof.
  unfold includes.
  induction p as [|c p IH]; simpl; intros H.
  - rewrite Z.eqb_refl. reflexivity.
  - apply orb_false_elim in H as [Hc Hp].
    rewrite Z.eqb_sym, Hc, (IH Hp). reflexivity.
Qed.

(** A text that includes the separator splits into at least two parts, so
    the destructuring in the range branch always finds both elements. *)
Lemma split_two (sep : Z) (s : jsstring) :
  includes sep s = true -> exists a b rest, split sep s = a :: b :: rest.
Proof.
  unfold includes. induction s as [|c r IH]; [discriminate|].
  cbn [existsb split]. rewrite (Z.eqb_sym sep c).
  destruct (c =? sep); cbn [orb].
  - intros _. pose proof (split_not_nil sep r) as Hne.
    destruct (split sep r) as [|b rest]; [congruence|].
    exists [], b, rest. reflexivity.
  - intros H. destruct (IH H) as (a & b & rest & ->).
    exists (c :: a), b, rest. reflexivity.
Qed.

Lemma includes_app (c : Z) (p r : jsstring) :
  includes c (p ++ r) = includes c p || includes c r.
Proof. unfold includes. apply existsb_app. Qed.

Lemma trimStart_ws (s : jsstring) :
  forallb is_ws s = true -> trimStart s = [].
Proof.
  induction s as [|c r IH]; simpl; intros H; [reflexivity|].
  apply andb_prop in H as [Hc Hr]. rewrite Hc. auto.
Qed.

Lemma trimStart_nil_inv (s : jsstring) :
  trimStart s = [] -> forallb is_ws s = true.
Proof.
  induction s as [|c r IH]; simpl; [reflexivity|].
  destruct (is_ws c); [auto|discriminate].
Qed.

Lemma trimStart_app_ws (l s : jsstring) :
  forallb is_ws l = true -> trimStart (l ++ s) = trimStart s.
Proof.
  induction l as [|c l IH]; simpl; intros H; [reflexivity|].
  apply andb_prop in H as [Hc Hl]. rewrite Hc. auto.
Qed.

Lemma trimStart_head (c : Z) (s : jsstring) :
  is_ws c = false -> trimStart (c :: s) = c :: s.
Proof. simpl. intros ->. reflexivity. Qed.

Lemma trim_ws (s : jsstring) : forallb is_ws s = true -> trim s = [].
Proof.
  intros H. unfold trim, trimEnd. rewrite (trimStart_ws s H). reflexivity.
Qed.

Lemma trim_nil_inv (s : jsstring) : trim s = [] -> forallb is_ws s = true.
Proof.
  unfold trim, trimEnd. intros H.
  assert (H1 : trimStart (rev (trimStart s)) = []).
  { rewrite <- (rev_involutive (trimStart _)), H. reflexivity. }
  apply trimStart_nil_inv in H1. rewrite forallb_forall in H1.
  destruct (trimStart s) as [|c r] eqn:E; [now apply trimStart_nil_inv|].
  assert (Hc : is_ws c = false).
  { clear H H1. induction s as [|d s IH]; simpl in E; [discriminate|].
    destruct (is_ws d) eqn:Ed; [auto|]. injection E as <- _. exact Ed. }
  rewrite H1 in Hc; [discriminate|]. apply in_rev. rewrite rev_involutive.
  left. reflexivity.
Qed.

(** Trimming removes the padding around a core that starts and ends with a
    character that is not white space. *)
Lemma trim_pad (l r core : jsstring) (a b : Z) :
  forallb is_ws l = true -> forallb is_ws r = true ->
  is_ws a = false -> is_ws b = false ->
  hd a core = a -> last core b = b -> core <> [] ->
  trim (l ++ core ++ r) = core.
Proof.
  intros Hl Hr Ha Hb Hhd Hlast Hne. unfold trim, trimEnd.
  rewrite (trimStart_app_ws _ _ Hl).
  destruct core as [|c core]; [congruence|]. simpl in Hhd. subst c.
  change ((a :: core) ++ r) with (a :: (core ++ r)).
  rewrite (trimStart_head _ _ Ha).
  change (a :: core ++ r) with ((a :: core) ++ r).
  rewrite rev_app_distr, trimStart_app_ws
    by (rewrite forallb_forall in *; intros x Hx; apply Hr, in_rev, Hx).
  destruct (exists_last Hne) as (pre & z & E). rewrite E in *.
  rewrite last_last in Hlast. subst z.
  rewrite rev_app_distr. simpl. rewrite Hb. simpl.
  rewrite rev_involutive. reflexivity.
Qed.

Lemma trim_id (core : jsstring) (a b : Z) :
  is_ws a = false -> is_ws b = false ->
  hd a core = a -> last core b = b -> core <> [] ->
  trim core = core.
Proof.
  intros Ha Hb Hhd Hlast Hne.
  pose proof (trim_pad [] [] core a b eq_refl eq_refl Ha Hb Hhd Hlast Hne)
    as P.
  simpl in P. rewrite app_nil_r in P. exact P.
Qed.

End StringLemmas.

(** ** Properties of [parseInt] and of the decimal notation *)

Section NumberLemmas.

Lemma digit_val_dec (d : Z) : is_digit d -> digit_val 10 (48 + d) = Some d.
Proof.
  intros [H0 H9]. unfold digit_val.
  replace ((48 <=? 48 + d) && (48 + d <=? 57)) with true
    by (symmetry; apply andb_true_intro; split; apply Z.leb_le; lia).
  replace (48 + d - 48) with d by lia.
  destruct (d <? 10) eqn:E; [reflexivity|]. apply Z.ltb_ge in E. lia.
Qed.

Lemma digit_val_not_dec (c : Z) :
  is_dec_digit c = false -> digit_val 10 c = None.
Proof.
  unfold is_dec_digit, digit_val. intros ->.
  destruct ((97 <=? c) && (c <=? 122)) eqn:E1.
  - apply andb_prop in E1 as [H1 _]. apply Z.leb_le in H1.
    destruct (c - 87 <? 10) eqn:E; [apply Z.ltb_lt in E; lia|reflexivity].
  - destruct ((65 <=? c) && (c <=? 90)) eqn:E2; [|reflexivity].
    apply andb_prop in E2 as [H1 _]. apply Z.leb_le in H1.
    destruct (c - 55 <? 10) eqn:E; [apply Z.ltb_lt in E; lia|reflexivity].
Qed.

Lemma digit_prefix_chars (ds : list Z) (rest : jsstring) :
  Forall is_digit ds -> stops rest ->
  digit_prefix 10 (chars ds ++ rest) = ds.
Proof.
  intros Hds Hrest. induction Hds as [|d ds Hd _ IH].
  - destruct rest as [|c r]; [reflexivity|]. unfold stops in Hrest.
    cbn [chars map app digit_prefix].
    now rewrite (digit_val_not_dec c Hrest).
  - change (chars (d :: ds) ++ rest) with ((48 + d) :: (chars ds ++ rest)).
    cbn [digit_prefix]. rewrite (digit_val_dec d Hd). f_equal. exact IH.
Qed.

Lemma dec_char_not_ws (d : Z) : is_digit d -> is_ws (48 + d) = false.
Proof.
  intros [H0 H9]. unfold is_ws.
  repeat (apply orb_false_intro);
  first [ apply andb_false_iff; right; apply Z.leb_gt; lia
        | apply andb_false_iff; left; apply Z.leb_gt; lia
        | apply Z.eqb_neq; lia ].
Qed.

Lemma strip_radix_dec (s : jsstring) :
  has_hex_prefix s = false -> strip_radix s = (10, s).
Proof.
  unfold has_hex_prefix, strip_radix.
  destruct s as [|c [|x r]]; try reflexivity. intros ->. reflexivity.
Qed.

(** [parseInt] reads a decimal numeral up to the first character that is
    not a decimal digit, unless the text starts with [0x] or [0X]. *)
Lemma parseInt_chars (ds : list Z) (rest : jsstring) :
  ds <> [] -> Forall is_digit ds -> stops rest ->
  has_hex_prefix (chars ds ++ rest) = false ->
  parseInt (chars ds ++ rest) = to_double (mathInt 10 ds).
Proof.
  intros Hne Hds Hrest Hhex. unfold parseInt.
  destruct ds as [|d ds]; [congruence|].
  pose proof (Forall_inv Hds) as Hd.
  assert (Hs : strip_sign (trimStart (chars (d :: ds) ++ rest))
               = (1, chars (d :: ds) ++ rest)).
  { change (chars (d :: ds) ++ rest) with ((48 + d) :: (chars ds ++ rest)).
    rewrite (trimStart_head _ _ (dec_char_not_ws d Hd)).
    destruct Hd as [H0 H9]. unfold strip_sign, dash, plus.
    replace (48 + d =? 45) with false by (symmetry; apply Z.eqb_neq; lia).
    replace (48 + d =? 43) with false by (symmetry; apply Z.eqb_neq; lia).
    reflexivity. }
  rewrite Hs, (strip_radix_dec _ Hhex), (digit_prefix_chars _ _ Hds Hrest).
  now rewrite Z.mul_1_l.
Qed.

Lemma parseInt_steps (s : jsstring) (sign : Z) (s1 : jsstring) (R : Z)
    (s2 : jsstring) :
  strip_sign (trimStart s) = (sign, s1) ->
  strip_radix s1 = (R, s2) ->
  parseInt s
  = match digit_prefix R s2 with
    | [] => NaN
    | d :: ds => to_double (sign * mathInt R (d :: ds))
    end.
Proof. intros H1 H2. unfold parseInt. now rewrite H1, H2. Qed.

(** Integers up to 2^53 are doubles. *)
Lemma to_double_exact (n : Z) : 0 <= n <= 2 ^ 53 -> to_double n = Int n.
Proof.
  intros [H0 H]. unfold to_double.
  destruct (Z.ltb_spec (Z.abs n) (2 ^ 53)) as [Hlt|Hge]; [reflexivity|].
  assert (n = 2 ^ 53) as -> by lia. reflexivity.
Qed.

(** Rounding never yields NaN. *)
Lemma to_double_not_NaN (n : Z) : isNaN (to_double n) = false.
Proof.
  unfold to_double. destruct (Z.abs n <? 2 ^ 53); [reflexivity|].
  match goal with |- context [if ?c then (if ?d then _ else _) else _] =>
    destruct c; [destruct d|] end; reflexivity.
Qed.

Lemma mathInt_snoc (R : Z) (ds : list Z) (d : Z) :
  mathInt R (ds ++ [d]) = mathInt R ds * R + d.
Proof. unfold mathInt. rewrite fold_left_app. reflexivity. Qed.

Lemma chars_snoc (ds : list Z) (d : Z) (acc : jsstring) :
  chars ds ++ (48 + d) :: acc = chars (ds ++ [d]) ++ acc.
Proof. unfold chars. rewrite map_app, <- app_assoc. reflexivity. Qed.

Lemma decimal_aux_spec (f : nat) :
  forall (n : Z) (acc : jsstring),
    0 <= n < 2 ^ Z.of_nat (S f) ->
    exists ds, decimal_aux (S f) n acc = chars ds ++ acc
               /\ ds <> [] /\ Forall is_digit ds /\ mathInt 10 ds = n.
Proof.
  assert (Hsmall : forall g n acc, 0 <= n -> n < 10 ->
            exists ds, decimal_aux (S g) n acc = chars ds ++ acc
               /\ ds <> [] /\ Forall is_digit ds /\ mathInt 10 ds = n).
  { intros g n acc H0 Hlt. exists [n]. simpl.
    replace (n <? 10) with true by (symmetry; apply Z.ltb_lt; lia).
    rewrite Z.mod_small by lia.
    repeat split; [discriminate|constructor; [split; lia|constructor]]. }
  induction f as [|f IH]; intros n acc Hn.
  - change (2 ^ Z.of_nat 1) with 2 in Hn. apply Hsmall; lia.
  - destruct (n <? 10) eqn:E; [apply Z.ltb_lt in E; apply Hsmall; lia|].
    apply Z.ltb_ge in E.
    assert (Hq : 0 <= n / 10 < 2 ^ Z.of_nat (S f)).
    { split; [apply Z.div_pos; lia|].
      replace (Z.of_nat (S (S f))) with (Z.succ (Z.of_nat (S f))) in Hn by lia.
      rewrite Z.pow_succ_r in Hn by lia.
      apply Z.div_lt_upper_bound; lia. }
    destruct (IH (n / 10) ((48 + n mod 10) :: acc) Hq)
      as (ds & Eds & Hne & Hds & Hval).
    exists (ds ++ [n mod 10]).
    change (decimal_aux (S (S f)) n acc)
      with (if n <? 10 then (48 + n mod 10) :: acc
            else decimal_aux (S f) (n / 10) ((48 + n mod 10) :: acc)).
    replace (n <? 10) with false by (symmetry; apply Z.ltb_ge; lia).
    rewrite Eds, chars_snoc. repeat split.
    + destruct ds; discriminate.
    + apply Forall_app. split; [exact Hds|].
      constructor; [|constructor]. unfold is_digit.
      pose proof (Z.mod_pos_bound n 10). lia.
    + rewrite mathInt_snoc, Hval.
      pose proof (Z.div_mod n 10). lia.
Qed.

(** The decimal notation of a non-negative integer is a non-empty list of
    digit characters whose value is the integer. *)
Lemma decimal_spec (n : Z) :
  0 <= n ->
  exists ds, decimal n = chars ds
             /\ ds <> [] /\ Forall is_digit ds /\ mathInt 10 ds = n.
Proof.
  intros Hn. unfold decimal.
  destruct (decimal_aux_spec (Z.to_nat (Z.log2 n)) n []) as (ds & E & H).
  - split; [exact Hn|].
    replace (Z.of_nat (S (Z.to_nat (Z.log2 n)))) with (Z.succ (Z.log2 n))
      by (pose proof (Z.log2_nonneg n); lia).
    destruct (Z.eq_dec n 0) as [->|Hnz]; [reflexivity|].
    apply Z.log2_spec. lia.
  - exists ds. rewrite E, app_nil_r. exact (conj eq_refl H).
Qed.

End NumberLemmas.

(** ** The loop body against the validation rules *)

Section PartLemmas.

Variable totalPages : Z.

Ltac split_cmp :=
  repeat match goal with
  | |- context [?a <? ?b] => destruct (Z.ltb_spec a b)
  | |- context [?a <=? ?b] => destruct (Z.leb_spec a b)
  | H : context [?a <? ?b] |- _ => destruct (Z.ltb_spec a b)
  | H : context [?a <=? ?b] |- _ => destruct (Z.leb_spec a b)
  end.

Lemma parsePart_rules (part : jsstring) :
  match first_violation totalPages part with
  | None => parsePart totalPages part = Ok (token_interval part)
  | Some k => exists e, parsePart totalPages part = Throw e
                        /\ kind e = k /\ blames totalPages e part
  end.
Proof.
  unfold first_violation, wellFormed, allPositive, allBounded, ordered,
    token_interval, numbers, parsePart, blames.
  destruct (includes dash part) eqn:Hd.
  - set (nums := map (fun num => parseInt (trim num)) (split dash part)).
    destruct (elem 0 nums) as [|a| |], (elem 1 nums) as [|b| |];
      cbn [forallb isNaN negb andb orb lt gt le];
      split_cmp; cbn [negb andb orb]; try lia; try reflexivity;
      eexists; (split; [reflexivity|split; [reflexivity|left; reflexivity]]).
  - destruct (parseInt part) as [|a| |] eqn:Hp;
      cbn [forallb isNaN negb andb orb lt gt le];
      split_cmp; cbn [negb andb orb]; try lia; try reflexivity;
      eexists; (split; [reflexivity|split; [reflexivity|]]);
      first [left; reflexivity|right; split; reflexivity].
Qed.

Lemma parsePart_ok (part : jsstring) :
  first_violation totalPages part = None ->
  parsePart totalPages part = Ok (token_interval part).
Proof. intros H. pose proof (parsePart_rules part) as P. now rewrite H in P. Qed.

Lemma parsePart_throw (part : jsstring) (k : Kind) :
  first_violation totalPages part = Some k ->
  exists e, parsePart totalPages part = Throw e
            /\ kind e = k /\ blames totalPages e part.
Proof. intros H. pose proof (parsePart_rules part) as P. now rewrite H in P. Qed.

(** A token that yields an interval violates no rule. *)
Lemma parsePart_ok_inv (part : jsstring) (iv : interval) :
  parsePart totalPages part = Ok iv ->
  first_violation totalPages part = None /\ iv = token_interval part.
Proof.
  intros H. pose proof (parsePart_rules part) as P.
  destruct (first_violation totalPages part) as [k|].
  - destruct P as (e & E & _). congruence.
  - split; [reflexivity|congruence].
Qed.

(** The interval of a token that passes the four rules is within bounds. *)
Lemma valid_interval (part : jsstring) :
  first_violation totalPages part = None ->
  exists a b, token_interval part = (Int a, Int b)
              /\ 1 <= a /\ a <= b /\ b <= totalPages.
Proof.
  unfold first_violation, wellFormed, allPositive, allBounded, ordered,
    token_interval.
  destruct (numbers part) as [|x [|y [|z l]]] eqn:E.
  - unfold numbers in E. destruct (includes dash part); discriminate.
  - destruct x as [|a| |]; cbn [forallb isNaN negb andb orb le];
      split_cmp; cbn [negb andb]; try discriminate.
    intros _. exists a, a. repeat split; lia.
  - destruct x as [|a| |], y as [|b| |];
      cbn [forallb isNaN negb andb orb le];
      split_cmp; cbn [negb andb]; try discriminate.
    intros _. exists a, b. repeat split; lia.
  - unfold numbers in E. destruct (includes dash part); discriminate.
Qed.

(** The loop appends to the array built so far. *)
Lemma parseParts_acc (parts : list jsstring) :
  forall acc,
    parseParts totalPages parts acc
    = bind (parseParts totalPages parts []) (fun r => Ok (acc ++ r)).
Proof.
  induction parts as [|p parts IH]; intros acc; simpl.
  - now rewrite app_nil_r.
  - destruct (parsePart totalPages p) as [iv|e]; simpl; [|reflexivity].
    rewrite (IH (acc ++ [iv])), (IH [iv]).
    destruct (parseParts totalPages parts []) as [r|e]; simpl; [|reflexivity].
    now rewrite <- app_assoc.
Qed.

Lemma parseParts_cons (p : jsstring) (parts : list jsstring) :
  parseParts totalPages (p :: parts) []
  = bind (parsePart totalPages p) (fun iv =>
      bind (parseParts totalPages parts []) (fun r => Ok (iv :: r))).
Proof.
  simpl. destruct (parsePart totalPages p) as [iv|e]; simpl; [|reflexivity].
  apply parseParts_acc.
Qed.

(** One interval per part, in order, when every part yields one. *)
Lemma parseParts_all (parts : list jsstring) (ivs : list interval) :
  Forall2 (fun p iv => parsePart totalPages p = Ok iv) parts ivs ->
  parseParts totalPages parts [] = Ok ivs.
Proof.
  induction 1 as [|p iv parts ivs Hp _ IH]; [reflexivity|].
  now rewrite parseParts_cons, Hp, IH.
Qed.

(** The loop stops at the first part that throws. *)
Lemma parseParts_stop (pre post : list jsstring) (p : jsstring) (e : Error) :
  Forall (fun q => exists iv, parsePart totalPages q = Ok iv) pre ->
  parsePart totalPages p = Throw e ->
  parseParts totalPages (pre ++ p :: post) [] = Throw e.
Proof.
  intros Hpre Hp. induction Hpre as [|q pre (iv & Hq) _ IH].
  - simpl. now rewrite Hp.
  - change ((q :: pre) ++ p :: post) with (q :: (pre ++ p :: post)).
    now rewrite parseParts_cons, Hq, IH.
Qed.

(** What a successful loop returns. *)
Lemma parseParts_ok_inv (parts : list jsstring) :
  forall r, parseParts totalPages parts [] = Ok r ->
  Forall (fun p => first_violation totalPages p = None) parts
  /\ r = map token_interval parts.
Proof.
  induction parts as [|p parts IH]; intros r.
  - simpl. intros [= <-]. split; [constructor|reflexivity].
  - rewrite parseParts_cons.
    destruct (parsePart totalPages p) as [iv|e] eqn:Hp; simpl; [|discriminate].
    destruct (parseParts totalPages parts []) as [r'|e] eqn:Hr; simpl;
      [|discriminate].
    intros [= <-]. destruct (IH r' eq_refl) as [Hall ->].
    destruct (parsePart_ok_inv p iv Hp) as [Hv ->].
    split; [constructor; assumption|reflexivity].
Qed.

End PartLemmas.

(** ** The parser as a whole *)

Section ParserLemmas.

Variable totalPages : Z.

Lemma parseRanges_blank (s : jsstring) :
  trim s = [] -> parseRanges totalPages s = Throw NoRanges.
Proof. unfold parseRanges. intros ->. reflexivity. Qed.

Lemma parseRanges_not_blank (s : jsstring) :
  trim s <> [] ->
  parseRanges totalPages s
  = parseParts totalPages (map trim (split comma s)) [].
Proof. unfold parseRanges. destruct (trim s); [congruence|reflexivity]. Qed.

Lemma comma_not_ws (s : jsstring) :
  forallb is_ws s = true -> includes comma s = false.
Proof.
  unfold includes. induction s as [|c r IH]; [reflexivity|].
  cbn [existsb forallb]. intros H. apply andb_prop in H as [Hc Hr].
  rewrite (IH Hr), orb_false_r.
  apply Z.eqb_neq. intros <-. discriminate.
Qed.

(** The only token of a blank input is blank, and a blank token is
    malformed: an input whose tokens are all valid is not blank. *)
Lemma valid_tokens_not_blank (s : jsstring) :
  Forall (valid_token totalPages) (split comma s) -> trim s <> [].
Proof.
  intros Hall Hblank. pose proof (trim_nil_inv s Hblank) as Hws.
  rewrite (split_no_sep comma s (comma_not_ws s Hws)) in Hall.
  apply Forall_inv in Hall. unfold valid_token in Hall.
  rewrite Hblank in Hall. discriminate.
Qed.

Lemma parseParts_valid (toks : list jsstring) :
  Forall (valid_token totalPages) toks ->
  parseParts totalPages (map trim toks) []
  = Ok (map (fun tok => token_interval (trim tok)) toks).
Proof.
  intros H. apply parseParts_all.
  induction H as [|tok toks Ht _ IH]; simpl; constructor; [|exact IH].
  now apply parsePart_ok.
Qed.

Lemma parseParts_throw_inv (toks : list jsstring) (e : Error) :
  parseParts totalPages (map trim toks) [] = Throw e ->
  exists pre tok post,
    toks = pre ++ tok :: post /\ Forall (valid_token totalPages) pre
    /\ parsePart totalPages (trim tok) = Throw e.
Proof.
  induction toks as [|t toks IH]; [discriminate|].
  cbn [map]. rewrite parseParts_cons.
  destruct (parsePart totalPages (trim t)) as [iv|e'] eqn:Ht; simpl.
  - destruct (parseParts totalPages (map trim toks) []) as [r|e'] eqn:Hr;
      simpl; [discriminate|].
    intros [= ->]. destruct (IH eq_refl) as (pre & tok & post & -> & Hpre & Hk).
    exists (t :: pre), tok, post. split; [reflexivity|]. split; [|exact Hk].
    constructor; [|exact Hpre]. now apply parsePart_ok_inv in Ht.
  - intros [= ->]. exists [], t, toks. repeat split; [constructor|exact Ht].
Qed.

Lemma parsePart_throw_inv (part : jsstring) (e : Error) :
  parsePart totalPages part = Throw e ->
  first_violation totalPages part = Some (kind e)
  /\ blames totalPages e part.
Proof.
  intros H. pose proof (parsePart_rules totalPages part) as P.
  destruct (first_violation totalPages part) as [k|]; [|congruence].
  destruct P as (e' & E & <- & Hb). assert (e' = e) as -> by congruence.
  split; [reflexivity|exact Hb].
Qed.

End ParserLemmas.

Lemma first_violation_mono (T T' : Z) (part : jsstring) :
  T <= T' ->
  first_violation T part = None -> first_violation T' part = None.
Proof.
  intros HT. unfold first_violation.
  destruct (wellFormed part); [|discriminate].
  destruct (allPositive part); [|discriminate]. cbn [negb].
  destruct (allBounded T part) eqn:Hb; [|discriminate]. cbn [negb].
  replace (allBounded T' part) with true; [intros H; exact H|].
  symmetry. unfold allBounded in *. rewrite forallb_forall in *.
  intros x Hx. specialize (Hb x Hx).
  destruct x as [|a| |]; try discriminate; [|reflexivity].
  cbn [le] in *. apply Z.leb_le in Hb. apply Z.leb_le. lia.
Qed.

Section TightLemmas.

Lemma trimStart_decompose (s : jsstring) :
  exists l, s = l ++ trimStart s /\ all_ws l.
Proof.
  induction s as [|c s (l & E & Hl)]; [exists []; split; reflexivity|].
  simpl. destruct (is_ws c) eqn:Hc.
  - exists (c :: l). split; [simpl; congruence|].
    unfold all_ws in *. simpl. now rewrite Hc.
  - exists []. split; reflexivity.
Qed.

Lemma all_ws_rev (l : jsstring) : all_ws l -> all_ws (rev l).
Proof.
  unfold all_ws. rewrite !forallb_forall. intros H x Hx.
  apply H, in_rev, Hx.
Qed.

Lemma trim_decompose (s : jsstring) :
  exists l r, s = l ++ trim s ++ r /\ all_ws l /\ all_ws r.
Proof.
  destruct (trimStart_decompose s) as (l & El & Hl).
  destruct (trimStart_decompose (rev (trimStart s))) as (r & Er & Hr).
  exists l, (rev r). split; [|split; [exact Hl|now apply all_ws_rev]].
  unfold trim, trimEnd. rewrite <- rev_app_distr, <- Er, rev_involutive.
  exact El.
Qed.

Lemma includes_trim (c : Z) (s : jsstring) :
  includes c s = false -> includes c (trim s) = false.
Proof.
  destruct (trim_decompose s) as (l & r & E & _). intros H.
  rewrite E, !includes_app in H.
  apply orb_false_elim in H as [_ H]. now apply orb_false_elim in H as [H _].
Qed.

Lemma trim_tight (l r s : jsstring) :
  all_ws l -> all_ws r -> tight s -> trim (l ++ s ++ r) = s.
Proof.
  intros Hl Hr (Hne & Hh & Hz).
  apply (trim_pad l r s (hd 0 s) (last s 0)); try assumption.
  - destruct s; [congruence|reflexivity].
  - destruct (exists_last Hne) as (p & z & ->). now rewrite !last_last.
Qed.

Lemma trim_tight_id (s : jsstring) : tight s -> trim s = s.
Proof.
  intros H. pose proof (trim_tight [] [] s eq_refl eq_refl H) as P.
  simpl in P. now rewrite app_nil_r in P.
Qed.

Lemma tight_app (x m y : jsstring) :
  tight x -> tight y -> tight (x ++ m ++ y).
Proof.
  intros (Hx & Hhx & _) (Hy & _ & Hly). repeat split.
  - destruct x; [congruence|discriminate].
  - destruct x; [congruence|exact Hhx].
  - destruct (exists_last Hy) as (p & z & ->).
    rewrite last_last in Hly.
    now rewrite !app_assoc, last_last.
Qed.

Lemma tight_chars (ds : list Z) :
  ds <> [] -> Forall is_digit ds -> tight (chars ds).
Proof.
  intros Hne Hds. repeat split.
  - destruct ds; [congruence|discriminate].
  - destruct ds as [|d ds]; [congruence|].
    apply dec_char_not_ws. now apply Forall_inv in Hds.
  - destruct (exists_last Hne) as (p & z & ->).
    unfold chars. rewrite map_app. simpl. rewrite last_last.
    apply dec_char_not_ws. apply Forall_app in Hds as [_ Hz].
    now apply Forall_inv in Hz.
Qed.

Lemma includes_chars (c : Z) (ds : list Z) :
  is_dec_digit c = false -> Forall is_digit ds ->
  includes c (chars ds) = false.
Proof.
  intros Hc Hds. unfold includes.
  induction Hds as [|d ds [H0 H9] _ IH]; [reflexivity|].
  cbn [chars map existsb]. fold (chars ds). rewrite IH, orb_false_r.
  apply Z.eqb_neq. intros ->. unfold is_dec_digit in Hc.
  apply andb_false_iff in Hc as [Hc|Hc]; apply Z.leb_gt in Hc; lia.
Qed.

Lemma chars_no_hex (ds : list Z) :
  Forall is_digit ds -> has_hex_prefix (chars ds) = false.
Proof.
  intros Hds. destruct ds as [|d [|d' ds]]; try reflexivity.
  apply Forall_inv_tail, Forall_inv in Hds. destruct Hds as [H0 H9].
  cbn [chars map has_hex_prefix].
  replace (48 + d' =? 120) with false by (symmetry; apply Z.eqb_neq; lia).
  replace (48 + d' =? 88) with false by (symmetry; apply Z.eqb_neq; lia).
  now rewrite andb_false_r.
Qed.

(** Reading back the decimal notation of a non-negative integer that is
    at most 2^53. *)
Lemma parseInt_toString (n : Z) :
  0 <= n <= 2 ^ 53 -> parseInt (toString n) = Int n.
Proof.
  intros [Hn Hmax]. unfold toString.
  replace (n <? 0) with false by (symmetry; apply Z.ltb_ge; lia).
  destruct (decimal_spec n Hn) as (ds & -> & Hne & Hds & E).
  rewrite <- (app_nil_r (chars ds)).
  rewrite parseInt_chars; try assumption; [|exact I|].
  - rewrite E. now apply to_double_exact.
  - rewrite app_nil_r. now apply chars_no_hex.
Qed.

Lemma toString_tight (n : Z) : 0 <= n -> tight (toString n).
Proof.
  intros Hn. unfold toString.
  replace (n <? 0) with false by (symmetry; apply Z.ltb_ge; lia).
  destruct (decimal_spec n Hn) as (ds & -> & Hne & Hds & _).
  now apply tight_chars.
Qed.

Lemma toString_includes (c n : Z) :
  0 <= n -> is_dec_digit c = false -> includes c (toString n) = false.
Proof.
  intros Hn Hc. unfold toString.
  replace (n <? 0) with false by (symmetry; apply Z.ltb_ge; lia).
  destruct (decimal_spec n Hn) as (ds & -> & Hne & Hds & _).
  now apply includes_chars.
Qed.

Lemma tight_not_blank (s : jsstring) : tight s -> trim s <> [].
Proof. intros H. rewrite (trim_tight_id s H). apply H. Qed.

End TightLemmas.

(** ** Tokens written in decimal notation *)

Section Numerals.

Variable totalPages : Z.

(** An input without comma is a single token. *)
Lemma parseRanges_single (tok : jsstring) :
  includes comma tok = false -> trim tok <> [] ->
  parseRanges totalPages tok
  = bind (parsePart totalPages (trim tok)) (fun iv => Ok [iv]).
Proof.
  intros Hc Hne. rewrite parseRanges_not_blank by exact Hne.
  rewrite (split_no_sep comma tok Hc). cbn [map]. rewrite parseParts_cons.
  destruct (parsePart totalPages (trim tok)); reflexivity.
Qed.

Lemma parsePart_numeral (n : Z) :
  0 <= n <= 2 ^ 53 ->
  parsePart totalPages (toString n)
  = if n <? 1 then Throw (NotPositive (toString n))
    else if totalPages <? n then Throw (PageMissing (Int n) totalPages)
    else Ok (Int n, Int n).
Proof.
  intros Hn. unfold parsePart.
  rewrite (toString_includes dash n (proj1 Hn) eq_refl),
    (parseInt_toString n Hn).
  reflexivity.
Qed.

Lemma parsePart_range (a b : Z) :
  0 <= a <= 2 ^ 53 -> 0 <= b <= 2 ^ 53 ->
  parsePart totalPages (toString a ++ dash :: toString b)
  = if (a <? 1) || (b <? 1)
      then Throw (NotPositive (toString a ++ dash :: toString b))
    else if (totalPages <? a) || (totalPages <? b)
      then Throw (RangeTooLarge totalPages (toString a ++ dash :: toString b))
    else if b <? a
      then Throw (RangeInverted (toString a ++ dash :: toString b))
    else Ok (Int a, Int b).
Proof.
  intros Ha Hb. unfold parsePart.
  assert (Hd : includes dash (toString a ++ dash :: toString b) = true).
  { rewrite includes_app. apply orb_true_iff. right. reflexivity. }
  rewrite Hd,
    (split_app dash _ _ (toString_includes dash a (proj1 Ha) eq_refl)),
    (split_no_sep dash _ (toString_includes dash b (proj1 Hb) eq_refl)).
  cbn [map elem nth].
  rewrite !trim_tight_id by (apply toString_tight; lia).
  rewrite (parseInt_toString a Ha), (parseInt_toString b Hb).
  reflexivity.
Qed.

Lemma parsePart_single (part : jsstring) :
  includes dash part = false ->
  parsePart totalPages part
  = if isNaN (parseInt part) then Throw (InvalidPage part)
    else page_outcome totalPages part (parseInt part).
Proof. intros H. unfold parsePart, page_outcome. now rewrite H. Qed.

Lemma page_outcome_kind (part : jsstring) (page : number) (e : Error) :
  page_outcome totalPages part page = Throw e -> kind e <> MalformedToken.
Proof.
  unfold page_outcome.
  destruct (lt page (Int 1)); [intros [= <-]; discriminate|].
  destruct (gt page (Int totalPages)); [intros [= <-]|]; discriminate.
Qed.

Lemma mathInt_nonneg (ds : list Z) :
  Forall is_digit ds -> 0 <= mathInt 10 ds.
Proof.
  intros H. unfold mathInt.
  assert (Hacc : forall acc, 0 <= acc ->
                   0 <= fold_left (fun a d => a * 10 + d) ds acc).
  { induction H as [|d ds [Hd _] _ IH]; intros acc Hacc; cbn [fold_left];
      [exact Hacc|]. apply IH. lia. }
  apply Hacc. lia.
Qed.

End Numerals.

Section Rendering.

Variable totalPages : Z.

Lemma parsePart_render (t : Token) :
  totalPages < 2 ^ 53 ->
  in_document totalPages t ->
  parsePart totalPages (render t) = Ok (denote t).
Proof.
  intros Hsafe. destruct t as [n|a b]; cbn [in_document render denote].
  - intros [H1 HT]. rewrite parsePart_numeral by lia.
    replace (n <? 1) with false by (symmetry; apply Z.ltb_ge; lia).
    now replace (totalPages <? n) with false
      by (symmetry; apply Z.ltb_ge; lia).
  - intros (H1 & Hab & HT). rewrite parsePart_range by lia.
    replace (a <? 1) with false by (symmetry; apply Z.ltb_ge; lia).
    replace (b <? 1) with false by (symmetry; apply Z.ltb_ge; lia).
    replace (totalPages <? a) with false by (symmetry; apply Z.ltb_ge; lia).
    replace (totalPages <? b) with false by (symmetry; apply Z.ltb_ge; lia).
    now replace (b <? a) with false by (symmetry; apply Z.ltb_ge; lia).
Qed.

Lemma render_tight (t : Token) : in_document totalPages t -> tight (render t).
Proof.
  destruct t as [n|a b]; simpl.
  - intros [H1 _]. apply toString_tight. lia.
  - intros (H1 & Hab & _).
    change (toString a ++ dash :: toString b)
      with (toString a ++ [dash] ++ toString b).
    apply tight_app; apply toString_tight; lia.
Qed.

Lemma render_no_comma (t : Token) :
  in_document totalPages t -> includes comma (render t) = false.
Proof.
  destruct t as [n|a b]; simpl.
  - intros [H1 _]. apply toString_includes; [lia|reflexivity].
  - intros (H1 & Hab & _). rewrite includes_app.
    rewrite (toString_includes comma a) by (try reflexivity; lia).
    cbn [includes existsb orb]. fold (includes comma (toString b)).
    rewrite (toString_includes comma b) by (try reflexivity; lia).
    reflexivity.
Qed.

(** Splitting a joined list of tokens and trimming gives the tokens back. *)
Lemma split_join (l r : jsstring) (xs : list jsstring) :
  all_ws l -> all_ws r -> xs <> [] ->
  Forall (fun x => tight x /\ includes comma x = false) xs ->
  forall pre, all_ws pre ->
    map trim (split comma (pre ++ join (l ++ comma :: r) xs)) = xs.
Proof.
  intros Hl Hr Hne Hxs. induction Hxs as [|x xs [Hx Hc] Hrest IH];
    [congruence|]. intros pre Hpre.
  destruct xs as [|y ys].
  - cbn [join]. rewrite split_no_sep.
    + cbn [map]. f_equal. rewrite <- (app_nil_r x) at 1.
      now apply trim_tight.
    + now rewrite includes_app, (comma_not_ws pre Hpre), Hc.
  - change (join (l ++ comma :: r) (x :: y :: ys))
      with (x ++ (l ++ comma :: r) ++ join (l ++ comma :: r) (y :: ys)).
    replace (pre ++ x ++ (l ++ comma :: r) ++ join (l ++ comma :: r) (y :: ys))
      with ((pre ++ x ++ l)
            ++ comma :: (r ++ join (l ++ comma :: r) (y :: ys)))
      by (rewrite <- !app_assoc; reflexivity).
    rewrite split_app.
    + cbn [map]. f_equal; [now apply trim_tight|].
      apply IH; [discriminate|exact Hr].
    + now rewrite !includes_app, (comma_not_ws pre Hpre),
        (comma_not_ws l Hl), Hc.
Qed.

Lemma not_blank_of_parts (s : jsstring) :
  Forall (fun p => p <> []) (map trim (split comma s)) -> trim s <> [].
Proof.
  intros H Hblank. pose proof (trim_nil_inv s Hblank) as Hws.
  rewrite (split_no_sep comma s (comma_not_ws s Hws)) in H.
  apply Forall_inv in H. contradiction.
Qed.

(** Tokens written as decimal numerals, separated by commas with optional
    white space around them, parse to the intervals they denote, one per
    token and in the same order, for a page count below 2^53 (above, the
    numerals are rounded when read). *)
Theorem rendered_tokens_parse (l r : jsstring) (toks : list Token) :
  totalPages < 2 ^ 53 ->
  all_ws l -> all_ws r -> toks <> [] ->
  Forall (in_document totalPages) toks ->
  parseRanges totalPages (join (l ++ comma :: r) (map render toks))
  = Ok (map denote toks).
Proof.
  intros Hsafe Hl Hr Hne Hall.
  assert (Hparts :
    map trim (split comma (join (l ++ comma :: r) (map render toks)))
    = map render toks).
  { apply (split_join l r (map render toks) Hl Hr) with (pre := []);
      [destruct toks; [congruence|discriminate]| |reflexivity].
    apply Forall_map. revert Hall. apply Forall_impl. intros t Ht.
    split; [now apply render_tight|now apply render_no_comma]. }
  rewrite parseRanges_not_blank, Hparts.
  - apply parseParts_all. clear Hparts Hne.
    induction Hall as [|t ts Ht _ IH]; simpl; constructor; [|exact IH].
    now apply parsePart_render.
  - apply not_blank_of_parts. rewrite Hparts. apply Forall_map.
    revert Hall. apply Forall_impl. intros t Ht.
    now apply (render_tight t Ht).
Qed.

End Rendering.

(** ** Concrete scenarios *)

Example scenario_mixed :
  parseRanges 12 (lit "1-3, 5, 7-10")
  = Ok [(Int 1, Int 3); (Int 5, Int 5); (Int 7, Int 10)].
Proof. reflexivity. Qed.

Example scenario_inverted :
  parseRanges 5 (lit "3-1") = Throw (RangeInverted (lit "3-1")).
Proof. reflexivity. Qed.

Example scenario_zero :
  parseRanges 5 (lit "0") = Throw (NotPositive (lit "0")).
Proof. reflexivity. Qed.

Example scenario_beyond :
  parseRanges 5 (lit "6") = Throw (PageMissing (Int 6) 5).
Proof. reflexivity. Qed.

Example scenario_empty : parseRanges 5 (lit "") = Throw NoRanges.
Proof. reflexivity. Qed.

Example scenario_double_dash :
  parseRanges 5 (lit "2--4") = Throw (InvalidRange (lit "2--4")).
Proof. reflexivity. Qed.

Example scenario_trailing_comma :
  parseRanges 5 (lit "1,") = Throw (InvalidPage (lit "")).
Proof. reflexivity. Qed.

(** Duplicates and overlaps are kept, in the order written. *)
Example scenario_overlap :
  parseRanges 5 (lit "2-4, 2, 1-3, 2")
  = Ok [(Int 2, Int 4); (Int 2, Int 2); (Int 1, Int 3); (Int 2, Int 2)].
Proof. reflexivity. Qed.

(** Page numbers above 2^53 are rounded to doubles when read. *)
Example scenario_rounding :
  parseInt (lit "9007199254740993") = Int 9007199254740992
  /\ parseInt (lit "100000000000000000000000")
     = Int 99999999999999991611392
  /\ parseRanges 5 (lit "100000000000000000000000")
     = Throw (PageMissing (Int 99999999999999991611392) 5).
Proof. repeat split; vm_compute; reflexivity. Qed.

(** A text starting with [0x] is read in base 16. *)
Example scenario_hex :
  parseRanges 20 (lit "0x10") = Ok [(Int 16, Int 16)].
Proof. reflexivity. Qed.

(** ** The claims *)

(** C1.  An input whose comma-separated tokens all pass validation against
    [totalPages] parses successfully into exactly one interval per token,
    in the order of the tokens: the interval of a single-page token is
    [(N, N)], that of a range token is [(A, B)], and nothing is merged,
    removed or reordered. *)
Theorem parse_one_interval_per_token (totalPages : Z) (s : jsstring) :
  Forall (valid_token totalPages) (split comma s) ->
  exists ivs,
    parseRanges totalPages s = Ok ivs
    /\ List.length ivs = List.length (split comma s)
    /\ ivs = map (fun tok => token_interval (trim tok)) (split comma s).
Proof.
  intros Hall. eexists. split; [|split; [|reflexivity]].
  - rewrite parseRanges_not_blank
      by now apply (valid_tokens_not_blank totalPages).
    now apply parseParts_valid.
  - apply length_map.
Qed.

Lemma parse_one_interval_per_token_witness :
  exists ivs,
    parseRanges 12 (lit "1-3, 5, 7-10") = Ok ivs
    /\ List.length ivs = 3%nat
    /\ ivs = [(Int 1, Int 3); (Int 5, Int 5); (Int 7, Int 10)].
Proof.
  apply (parse_one_interval_per_token 12 (lit "1-3, 5, 7-10")).
  repeat constructor.
Defined.

(** C2.  Tokens are validated from left to right, and the rules within a
    token in the order well-formedness, positivity, upper bound, range
    ordering: on an input that is not blank, the error returned is the first
    rule violated by the first invalid token, whatever follows that
    token. *)
Theorem first_failure_wins (totalPages : Z) (s : jsstring)
    (pre post : list jsstring) (tok : jsstring) (k : Kind) :
  trim s <> [] ->
  split comma s = pre ++ tok :: post ->
  Forall (valid_token totalPages) pre ->
  first_violation totalPages (trim tok) = Some k ->
  exists e, parseRanges totalPages s = Throw e
            /\ kind e = k /\ blames totalPages e (trim tok).
Proof.
  intros Hs Hsplit Hpre Htok.
  destruct (parsePart_throw totalPages _ _ Htok) as (e & He & Hk & Hb).
  exists e. split; [|split; assumption].
  rewrite parseRanges_not_blank, Hsplit, map_app by assumption.
  apply parseParts_stop; [|exact He].
  apply Forall_map. revert Hpre. apply Forall_impl. intros q Hq.
  eexists. now apply parsePart_ok.
Qed.

Lemma first_failure_wins_witness :
  exists e, parseRanges 5 (lit "2, 3-1, 9, x") = Throw e
            /\ kind e = InvertedRange
            /\ blames 5 e (trim (lit " 3-1")).
Proof.
  apply (first_failure_wins 5 (lit "2, 3-1, 9, x")
           [lit "2"] [lit " 9"; lit " x"] (lit " 3-1") InvertedRange).
  - discriminate.
  - reflexivity.
  - repeat constructor.
  - reflexivity.
Defined.

(** C3.  Every interval of a successful parse satisfies
    [1 <= start <= end <= totalPages]. *)
Theorem intervals_within_bounds (totalPages : Z) (s : jsstring)
    (ivs : list interval) :
  parseRanges totalPages s = Ok ivs ->
  Forall (fun iv => exists a b, iv = (Int a, Int b)
                      /\ 1 <= a /\ a <= b /\ b <= totalPages) ivs.
Proof.
  unfold parseRanges. destruct (trim s); [discriminate|]. intros H.
  apply parseParts_ok_inv in H as [Hall ->].
  apply Forall_map. revert Hall. apply Forall_impl. intros p Hp.
  now apply valid_interval.
Qed.

Lemma intervals_within_bounds_witness :
  Forall (fun iv => exists a b, iv = (Int a, Int b)
                      /\ 1 <= a /\ a <= b /\ b <= 12)
    [(Int 1, Int 3); (Int 5, Int 5); (Int 7, Int 10)].
Proof.
  apply (intervals_within_bounds 12 (lit "1-3, 5, 7-10")). reflexivity.
Defined.

(** C6.  Monotonic rejection: an input accepted with page count [T] is
    accepted, with the same intervals, with every larger page count. *)
Theorem raising_bound_keeps_result (T T' : Z) (s : jsstring)
    (ivs : list interval) :
  T < T' ->
  parseRanges T s = Ok ivs ->
  parseRanges T' s = Ok ivs.
Proof.
  unfold parseRanges. destruct (trim s); [discriminate|]. intros HT H.
  apply parseParts_ok_inv in H as [Hall ->].
  apply parseParts_all. induction Hall as [|p ps Hp _ IH]; simpl;
    constructor; [|exact IH].
  apply parsePart_ok. apply (first_violation_mono T T'); [lia|exact Hp].
Qed.

Lemma raising_bound_keeps_result_witness :
  parseRanges 40 (lit "1-3, 5, 7-10")
  = Ok [(Int 1, Int 3); (Int 5, Int 5); (Int 7, Int 10)].
Proof.
  apply (raising_bound_keeps_result 12 40 (lit "1-3, 5, 7-10"));
    [lia|reflexivity].
Defined.

(** C8.  An input that is empty or consists only of white space is rejected
    with the EmptyInput error, for every page count; no interval is
    produced. *)
Theorem blank_input_rejected (totalPages : Z) (s : jsstring) :
  forallb is_ws s = true ->
  parseRanges totalPages s = Throw NoRanges /\ kind NoRanges = EmptyInput.
Proof.
  intros H. split; [|reflexivity]. apply parseRanges_blank, trim_ws, H.
Qed.

Lemma blank_input_rejected_witness :
  parseRanges 5 (lit "") = Throw NoRanges /\ kind NoRanges = EmptyInput.
Proof. apply (blank_input_rejected 5 (lit "")). reflexivity. Defined.

Lemma allBounded_zero (part : jsstring) :
  allPositive part = true -> allBounded 0 part = false.
Proof.
  unfold allPositive, allBounded.
  assert (Hn : exists x l, numbers part = x :: l).
  { unfold numbers. destruct (includes dash part); eexists; eexists;
      reflexivity. }
  destruct Hn as (x & l & ->). cbn [forallb]. intros H.
  apply andb_prop in H as [Hx _]. apply andb_false_iff. left.
  destruct x as [|a| |]; try discriminate; [|reflexivity]. cbn [le] in *.
  apply Z.leb_le in Hx. apply Z.leb_gt. lia.
Qed.

(** With no document loaded the change handler does not call the parser:
    it stores the text and clears the error message. *)
Lemma handleRangeChange_no_document (value : jsstring) (st : State) :
  totalPages st <= 0 ->
  handleRangeChange value st = mkState (totalPages st) value None.
Proof.
  intros H. unfold handleRangeChange. cbn [setSplitRanges totalPages].
  replace (0 <? totalPages st) with false by (symmetry; apply Z.ltb_ge; lia).
  destruct (trim value); reflexivity.
Qed.

(** C4, as stated, fails: with a page count of 0 the input ["0"] is
    rejected as a non-positive page, not as out of bounds, because
    positivity is checked before the upper bound. *)
Lemma zero_pages_other_kind :
  parseRanges 0 (lit "0") = Throw (NotPositive (lit "0"))
  /\ ~ (forall s : jsstring, s <> [] ->
          exists e, parseRanges 0 s = Throw e /\ kind e = PageOutOfBounds).
Proof.
  split; [reflexivity|]. intros H.
  destruct (H (lit "0")) as (e & He & Hk); [discriminate|].
  vm_compute in He. injection He as <-. discriminate.
Qed.

(** C4, amended.  With a page count of 0 every input is rejected: a blank
    input as EmptyInput, any other input with the first rule that its first
    token violates, which is MalformedToken for a token that is not
    well-formed, NonPositivePage for a number below 1, and PageOutOfBounds
    for a well-formed token whose numbers are all at least 1. *)
Theorem zero_pages_rejects (s : jsstring) :
  exists e,
    parseRanges 0 s = Throw e
    /\ kind e =
       match trim s with
       | [] => EmptyInput
       | _ :: _ =>
           let first := trim (hd [] (split comma s)) in
           if negb (wellFormed first) then MalformedToken
           else if negb (allPositive first) then NonPositivePage
           else PageOutOfBounds
       end.
Proof.
  destruct (trim s) as [|c t] eqn:Hs.
  - exists NoRanges. split; [now apply parseRanges_blank|reflexivity].
  - assert (Hne : trim s <> []) by (rewrite Hs; discriminate).
    rewrite (parseRanges_not_blank 0 s Hne).
    destruct (split comma s) as [|tok toks] eqn:E;
      [now apply split_not_nil in E|].
    cbn [hd map]. set (first := trim tok).
    assert (Hv : first_violation 0 first
                 = Some (if negb (wellFormed first) then MalformedToken
                         else if negb (allPositive first) then NonPositivePage
                         else PageOutOfBounds)).
    { unfold first_violation. destruct (wellFormed first); [|reflexivity].
      destruct (allPositive first) eqn:Hp; [|reflexivity].
      now rewrite (allBounded_zero first Hp). }
    destruct (parsePart_throw 0 first _ Hv) as (e & He & Hk & _).
    exists e. split; [|exact Hk].
    apply (parseParts_stop 0 [] (map trim toks) first e); [constructor|exact He].
Qed.

(** C5, as stated, fails: for the input [" 0"] the error carries the
    trimmed text ["0"], which is not the token text [" 0"] of the input. *)
Lemma error_token_trimmed :
  parseRanges 5 (lit " 0") = Throw (NotPositive (lit "0"))
  /\ ~ (forall (T : Z) (s : jsstring) (e : Error),
          parseRanges T s = Throw e -> kind e <> EmptyInput ->
          exists tok, In tok (split comma s) /\ error_token e = Some tok).
Proof.
  split; [reflexivity|]. intros H.
  destruct (H 5 (lit " 0") (NotPositive (lit "0")) eq_refl)
    as (tok & Hin & Htok); [discriminate|].
  destruct Hin as [<-|[]]. discriminate.
Qed.

(** C5, amended.  Every failure other than EmptyInput comes from the first
    invalid token of the input and is the first rule that token violates;
    the error message interpolates the token after trimming, except the
    message for a single page above the page count, which interpolates the
    parsed page number and the page count. *)
Theorem failure_names_trimmed_token (T : Z) (s : jsstring) (e : Error) :
  parseRanges T s = Throw e ->
  kind e <> EmptyInput ->
  exists pre tok post,
    split comma s = pre ++ tok :: post
    /\ Forall (valid_token T) pre
    /\ first_violation T (trim tok) = Some (kind e)
    /\ (error_token e = Some (trim tok)
        \/ (includes dash (trim tok) = false
            /\ e = PageMissing (parseInt (trim tok)) T)).
Proof.
  unfold parseRanges. destruct (trim s).
  - intros [= <-] H. now elim H.
  - intros H _. apply parseParts_throw_inv in H
      as (pre & tok & post & E & Hpre & Hk).
    apply parsePart_throw_inv in Hk as [Hv Hb].
    exists pre, tok, post. repeat split; assumption.
Qed.

Lemma failure_names_trimmed_token_witness :
  exists pre tok post,
    split comma (lit "2 , 0") = pre ++ tok :: post
    /\ Forall (valid_token 5) pre
    /\ first_violation 5 (trim tok) = Some NonPositivePage
    /\ (Some (lit "0") = Some (trim tok)
        \/ (includes dash (trim tok) = false
            /\ NotPositive (lit "0") = PageMissing (parseInt (trim tok)) 5)).
Proof.
  apply (failure_names_trimmed_token 5 (lit "2 , 0") (NotPositive (lit "0")));
    [reflexivity|discriminate].
Defined.

(** C7, as stated, fails at both ends of the range of page counts.  With
    0 pages ["1-0"] is rejected, its end page being below 1.  With 2^53
    pages the numeral of 2^53 + 1 is read as the double 2^53 and accepted
    (and the sum of the page count and 1, computed on doubles, is 2^53
    itself, whose numeral is accepted as well). *)
Lemma boundary_fails_at_the_ends :
  parseRanges 0 (lit "1-" ++ toString 0) = Throw (NotPositive (lit "1-0"))
  /\ parseRanges (2 ^ 53) (toString (2 ^ 53 + 1))
     = Ok [(Int (2 ^ 53), Int (2 ^ 53))]
  /\ parseRanges (2 ^ 53) (toString (2 ^ 53))
     = Ok [(Int (2 ^ 53), Int (2 ^ 53))]
  /\ ~ (forall T : Z, 0 <= T ->
          exists ivs, parseRanges T (lit "1-" ++ toString T) = Ok ivs)
  /\ ~ (forall T : Z, 0 <= T ->
          exists e, parseRanges T (toString (T + 1)) = Throw e
                    /\ kind e = PageOutOfBounds).
Proof.
  split; [reflexivity|]. split; [vm_compute; reflexivity|].
  split; [vm_compute; reflexivity|]. split.
  - intros H. destruct (H 0) as (ivs & Hivs); [lia|]. discriminate.
  - intros H. destruct (H (2 ^ 53)) as (e & He & _); [vm_compute; discriminate|].
    vm_compute in He. discriminate.
Qed.

(** C7, amended.  For every page count from 1 to 2^53 - 1, the range from
    1 to the page count parses to that single interval; for every page
    count from 0 to 2^53 - 1, the page after the last one is rejected as
    out of bounds. *)
Theorem boundary_behaviour (T : Z) :
  0 <= T -> T < 2 ^ 53 ->
  (1 <= T -> parseRanges T (lit "1-" ++ toString T) = Ok [(Int 1, Int T)])
  /\ parseRanges T (toString (T + 1)) = Throw (PageMissing (Int (T + 1)) T)
  /\ kind (PageMissing (Int (T + 1)) T) = PageOutOfBounds.
Proof.
  intros H0 Hsafe. split; [|split; [|reflexivity]].
  - intros H1.
    change (lit "1-" ++ toString T) with (toString 1 ++ dash :: toString T).
    assert (Ht : tight (toString 1 ++ dash :: toString T)).
    { change (toString 1 ++ dash :: toString T)
        with (toString 1 ++ [dash] ++ toString T).
      apply tight_app; apply toString_tight; lia. }
    rewrite parseRanges_single.
    + rewrite (trim_tight_id _ Ht), parsePart_range by lia.
      replace (T <? 1) with false by (symmetry; apply Z.ltb_ge; lia).
      rewrite !Z.ltb_irrefl. reflexivity.
    + rewrite includes_app. cbn [includes existsb orb].
      fold (includes comma (toString T)).
      rewrite (toString_includes comma T) by (try reflexivity; lia).
      reflexivity.
    + now apply tight_not_blank.
  - assert (Ht : tight (toString (T + 1))) by (apply toString_tight; lia).
    rewrite parseRanges_single.
    + rewrite (trim_tight_id _ Ht), parsePart_numeral by lia.
      replace (T + 1 <? 1) with false by (symmetry; apply Z.ltb_ge; lia).
      replace (T <? T + 1) with true by (symmetry; apply Z.ltb_lt; lia).
      reflexivity.
    + apply toString_includes; [lia|reflexivity].
    + now apply tight_not_blank.
Qed.

Lemma boundary_behaviour_witness :
  parseRanges 5 (lit "1-5") = Ok [(Int 1, Int 5)]
  /\ parseRanges 5 (lit "6") = Throw (PageMissing (Int 6) 5).
Proof.
  assert (H0 : 0 <= 5) by lia.
  assert (Hsafe : 5 < 2 ^ 53) by reflexivity.
  split.
  - apply (proj1 (boundary_behaviour 5 H0 Hsafe)). lia.
  - apply (proj1 (proj2 (boundary_behaviour 5 H0 Hsafe))).
Defined.

(** C9, as stated, fails: the token ["0x"] has the decimal prefix ["0"]
    followed by the non-numeric character ["x"], and it is reported as
    malformed, because [parseInt] reads a text that starts with [0x] in
    base 16 and finds no digit. *)
Lemma hex_prefix_malformed :
  parseRanges 5 (lit "0x") = Throw (InvalidPage (lit "0x"))
  /\ ~ (forall (T : Z) (tok : jsstring) (ds : list Z) (rest : jsstring),
          includes dash tok = false -> includes comma tok = false ->
          trim tok = chars ds ++ rest ->
          ds <> [] -> Forall is_digit ds -> rest <> [] -> stops rest ->
          forall e, parseRanges T tok = Throw e -> kind e <> MalformedToken).
Proof.
  split; [reflexivity|]. intros H.
  apply (H 5 (lit "0x") [0] (lit "x")) with (e := InvalidPage (lit "0x"));
    try reflexivity; try discriminate.
  repeat constructor; lia.
Qed.

(** C9, amended.  For a token without [-]:
    - if its trimmed text starts with decimal digits, goes on with a
      character that is not a decimal digit (or ends) and does not start
      with [0x] or [0X], the token is never reported as malformed; it is
      read as the double nearest to the integer [N] written by the leading
      digits, which is [N] itself up to 2^53, and then rejected as
      non-positive when below 1, as out of bounds when above the page
      count, and accepted as a single page otherwise;
    - if its trimmed text starts with [0x] or [0X], it is read in base 16:
      it is malformed when no hexadecimal digit follows the prefix, and is
      otherwise treated in the same way with the value of the hexadecimal
      digits. *)
Theorem leading_integer_read (T : Z) (tok : jsstring) :
  includes dash tok = false ->
  (forall (ds : list Z) (rest : jsstring),
     trim tok = chars ds ++ rest ->
     ds <> [] -> Forall is_digit ds -> stops rest ->
     has_hex_prefix (trim tok) = false ->
     let N := mathInt 10 ds in
     parseInt (trim tok) = to_double N
     /\ (N <= 2 ^ 53 -> to_double N = Int N)
     /\ parsePart T (trim tok) = page_outcome T (trim tok) (to_double N)
     /\ (forall e, parsePart T (trim tok) = Throw e ->
                   kind e <> MalformedToken)
     /\ (includes comma tok = false ->
         parseRanges T tok
         = bind (page_outcome T (trim tok) (to_double N))
             (fun iv => Ok [iv])))
  /\ (forall (x : Z) (rest : jsstring),
        trim tok = 48 :: x :: rest -> x = 120 \/ x = 88 ->
        parsePart T (trim tok)
        = match digit_prefix 16 rest with
          | [] => Throw (InvalidPage (trim tok))
          | d :: ds =>
              page_outcome T (trim tok) (to_double (mathInt 16 (d :: ds)))
          end).
Proof.
  intros Hd. pose proof (includes_trim dash tok Hd) as Hdt. split.
  - intros ds rest Htrim Hne Hds Hrest Hhex N.
    assert (Hint : parseInt (trim tok) = to_double N).
    { rewrite Htrim in Hhex |- *. now apply parseInt_chars. }
    assert (Hp : parsePart T (trim tok)
                 = page_outcome T (trim tok) (to_double N)).
    { rewrite (parsePart_single T _ Hdt), Hint.
      now rewrite to_double_not_NaN. }
    split; [exact Hint|]. split.
    { intros HN. apply to_double_exact. split; [|exact HN].
      now apply mathInt_nonneg. }
    split; [exact Hp|]. split.
    { intros e He. rewrite Hp in He. now apply page_outcome_kind in He. }
    intros Hc. rewrite parseRanges_single, Hp; [reflexivity|exact Hc|].
    rewrite Htrim. destruct ds; [congruence|discriminate].
  - intros x rest Htrim Hx. rewrite (parsePart_single T _ Hdt).
    assert (Hint : parseInt (trim tok)
                   = match digit_prefix 16 rest with
                     | [] => NaN
                     | d :: ds => to_double (mathInt 16 (d :: ds))
                     end).
    { rewrite Htrim.
      assert (Hr : strip_radix (48 :: x :: rest) = (16, rest))
        by (destruct Hx as [->| ->]; reflexivity).
      rewrite (parseInt_steps (48 :: x :: rest) 1 (48 :: x :: rest) 16 rest
                 eq_refl Hr).
      destruct (digit_prefix 16 rest) as [|d ds]; [reflexivity|].
      now rewrite Z.mul_1_l. }
    rewrite Hint. destruct (digit_prefix 16 rest) as [|d ds]; [reflexivity|].
    now rewrite to_double_not_NaN.
Qed.

Lemma leading_integer_read_witness :
  parsePart 5 (trim (lit " 2a ")) = Ok (Int 2, Int 2)
  /\ parseRanges 5 (lit " 2a ") = Ok [(Int 2, Int 2)].
Proof.
  assert (Hd : includes dash (lit " 2a ") = false) by reflexivity.
  assert (Hdig : Forall is_digit [2]) by (repeat constructor; lia).
  assert (Hne : [2] <> @nil Z) by discriminate.
  pose proof (proj1 (leading_integer_read 5 (lit " 2a ") Hd) [2] (lit "a")
                eq_refl Hne Hdig eq_refl eq_refl) as H.
  cbv zeta in H. destruct H as (_ & _ & Hp & _ & Hr).
  split; [exact Hp|exact (Hr eq_refl)].
Defined.

(** C10.  A token with two or more [-] whose first two parts read as
    integers [A] and [B] with [1 <= A <= B <= totalPages] is not reported as
    malformed: it yields the interval [(A, B)], whatever follows the second
    [-]. *)
Theorem extra_range_parts_ignored (T : Z) (tok p1 p2 rest : jsstring)
    (A B : Z) :
  trim tok = p1 ++ dash :: p2 ++ dash :: rest ->
  includes dash p1 = false -> includes dash p2 = false ->
  parseInt (trim p1) = Int A -> parseInt (trim p2) = Int B ->
  1 <= A -> A <= B -> B <= T ->
  parsePart T (trim tok) = Ok (Int A, Int B)
  /\ (includes comma tok = false -> parseRanges T tok = Ok [(Int A, Int B)]).
Proof.
  intros Htrim H1 H2 HA HB H1A HAB HBT.
  assert (Hp : parsePart T (trim tok) = Ok (Int A, Int B)).
  { rewrite Htrim. unfold parsePart.
    assert (Hd : includes dash (p1 ++ dash :: p2 ++ dash :: rest) = true).
    { rewrite includes_app. apply orb_true_iff. right. reflexivity. }
    rewrite Hd, (split_app dash p1 _ H1), (split_app dash p2 _ H2).
    cbn [map elem nth]. rewrite HA, HB. cbn [isNaN orb lt gt].
    replace (A <? 1) with false by (symmetry; apply Z.ltb_ge; lia).
    replace (B <? 1) with false by (symmetry; apply Z.ltb_ge; lia).
    replace (T <? A) with false by (symmetry; apply Z.ltb_ge; lia).
    replace (T <? B) with false by (symmetry; apply Z.ltb_ge; lia).
    replace (B <? A) with false by (symmetry; apply Z.ltb_ge; lia).
    reflexivity. }
  split; [exact Hp|]. intros Hc.
  rewrite parseRanges_single, Hp; [reflexivity|exact Hc|].
  rewrite Htrim. destruct p1; discriminate.
Qed.

Lemma extra_range_parts_ignored_witness :
  parsePart 5 (trim (lit "1-2-3")) = Ok (Int 1, Int 2)
  /\ (includes comma (lit "1-2-3") = false ->
      parseRanges 5 (lit "1-2-3") = Ok [(Int 1, Int 2)]).
Proof.
  apply (extra_range_parts_ignored 5 (lit "1-2-3")
           (lit "1") (lit "2") (lit "3") 1 2);
    try reflexivity; lia.
Defined.


(** ** Further properties of the parser *)

Section ParserExtras.

Variable T : Z.

Lemma first_violation_kind (part : jsstring) :
  first_violation T part <> Some EmptyInput.
Proof.
  unfold first_violation.
  destruct (wellFormed part), (allPositive part), (allBounded T part),
    (ordered part); discriminate.
Qed.

Lemma parse_ok_inv (s : jsstring) (ivs : list interval) :
  parseRanges T s = Ok ivs ->
  Forall (valid_token T) (split comma s)
  /\ ivs = map (fun tok => token_interval (trim tok)) (split comma s).
Proof.
  unfold parseRanges. destruct (trim s); [discriminate|]. intros H.
  apply parseParts_ok_inv in H as [Hall ->]. split.
  - now apply Forall_map in Hall.
  - now rewrite map_map.
Qed.

Lemma parse_valid (s : jsstring) :
  Forall (valid_token T) (split comma s) ->
  parseRanges T s
  = Ok (map (fun tok => token_interval (trim tok)) (split comma s)).
Proof.
  intros H. rewrite parseRanges_not_blank
    by now apply (valid_tokens_not_blank T).
  now apply parseParts_valid.
Qed.

Lemma parse_ok_iff (s : jsstring) :
  (exists ivs, parseRanges T s = Ok ivs)
  <-> Forall (valid_token T) (split comma s).
Proof.
  split.
  - intros (ivs & H). now apply parse_ok_inv in H.
  - intros H. eexists. now apply parse_valid.
Qed.

(** [parseRanges] accepts an input exactly when every comma-separated
    token passes the four rules. *)
Theorem parse_succeeds_iff_tokens_valid (s : jsstring) :
  (exists ivs, parseRanges T s = Ok ivs)
  <-> Forall (valid_token T) (split comma s).
Proof.
  split.
  - intros (ivs & H). now apply parse_ok_inv in H.
  - intros H. eexists. now apply parse_valid.
Qed.

Lemma parse_throw_not_blank (s : jsstring) (e : Error) :
  trim s <> [] -> parseRanges T s = Throw e -> e <> NoRanges.
Proof.
  intros Hne H. rewrite parseRanges_not_blank in H by exact Hne.
  apply parseParts_throw_inv in H as (pre & tok & post & _ & _ & Hk).
  apply parsePart_throw_inv in Hk as [Hv _]. intros ->.
  now apply first_violation_kind in Hv.
Qed.

Lemma valid_token_dec (tok : jsstring) :
  {valid_token T tok} + {~ valid_token T tok}.
Proof.
  unfold valid_token. destruct (first_violation T (trim tok)) as [k|].
  - right. discriminate.
  - left. reflexivity.
Qed.

End ParserExtras.

(** [validateRanges] answers true exactly when every token of the text is
    valid for the current page count; it then clears the error message,
    and otherwise stores the error thrown by the parser.  It changes neither
    the page count nor the text. *)
Theorem validateRanges_accepts (s : jsstring) (st : State) :
  (snd (validateRanges s st) = true
   <-> Forall (valid_token (totalPages st)) (split comma s))
  /\ (snd (validateRanges s st) = true
      <-> rangeError (fst (validateRanges s st)) = None)
  /\ totalPages (fst (validateRanges s st)) = totalPages st
  /\ splitRanges (fst (validateRanges s st)) = splitRanges st.
Proof.
  pose proof (parse_ok_iff (totalPages st) s) as Hiff.
  unfold validateRanges.
  destruct (parseRanges (totalPages st) s) as [ivs|e]; cbn.
  - repeat split; auto. intros _. apply Hiff. now exists ivs.
  - repeat split; try discriminate.
    intros H. apply Hiff in H as (ivs & H). discriminate.
Qed.

Lemma handleRangeChange_eq (value : jsstring) (st : State) :
  handleRangeChange value st
  = mkState (totalPages st) value
      (match trim value with
       | [] => None
       | _ :: _ =>
           if 0 <? totalPages st then
             match parseRanges (totalPages st) value with
             | Ok _ => None
             | Throw e => Some e
             end
           else None
       end).
Proof.
  unfold handleRangeChange, validateRanges. cbn.
  destruct (trim value); [reflexivity|].
  destruct (0 <? totalPages st); [|reflexivity].
  destruct (parseRanges (totalPages st) value); reflexivity.
Qed.

(** Typing never shows the message for an empty input: whatever the state
    and the text, the error left by [handleRangeChange] is not the
    EmptyInput one, and a blank text clears the error. *)
Theorem handleRangeChange_never_empty_error (value : jsstring) (st : State) :
  rangeError (handleRangeChange value st) <> Some NoRanges
  /\ (all_ws value -> rangeError (handleRangeChange value st) = None).
Proof.
  rewrite handleRangeChange_eq. cbn [rangeError]. split.
  - destruct (trim value) as [|c t] eqn:Ht; [discriminate|].
    destruct (0 <? totalPages st); [|discriminate].
    destruct (parseRanges (totalPages st) value) as [ivs|e] eqn:Hp;
      [discriminate|].
    intros [= ->].
    assert (Hne : trim value <> []) by (rewrite Ht; discriminate).
    exact (parse_throw_not_blank _ _ _ Hne Hp eq_refl).
  - intros Hws. now rewrite (trim_ws value Hws).
Qed.

(** With a document loaded, [handleRangeChange] stores the text and leaves
    no error exactly when the text is blank or all its tokens are valid. *)
Theorem handleRangeChange_error_iff (value : jsstring) (st : State) :
  0 < totalPages st ->
  splitRanges (handleRangeChange value st) = value
  /\ totalPages (handleRangeChange value st) = totalPages st
  /\ (rangeError (handleRangeChange value st) = None
      <-> all_ws value
          \/ Forall (valid_token (totalPages st)) (split comma value)).
Proof.
  intros HT. rewrite handleRangeChange_eq. cbn [rangeError splitRanges totalPages].
  split; [reflexivity|split; [reflexivity|]].
  replace (0 <? totalPages st) with true by (symmetry; now apply Z.ltb_lt).
  pose proof (parse_ok_iff (totalPages st) value) as Hiff.
  destruct (trim value) as [|c t] eqn:Ht.
  - split; auto. intros _. left. now apply trim_nil_inv.
  - destruct (parseRanges (totalPages st) value) as [ivs|e].
    + split; auto. intros _. right. apply Hiff. now exists ivs.
    + split; [discriminate|]. intros [Hws|Hall].
      * apply trim_ws in Hws. congruence.
      * apply Hiff in Hall as (ivs & H). discriminate.
Qed.

Lemma handleRangeChange_error_iff_witness :
  splitRanges (handleRangeChange (lit "1-3, 5") (mkState 12 [] None))
  = lit "1-3, 5"
  /\ totalPages (handleRangeChange (lit "1-3, 5") (mkState 12 [] None)) = 12
  /\ (rangeError (handleRangeChange (lit "1-3, 5") (mkState 12 [] None))
      = None
      <-> all_ws (lit "1-3, 5")
          \/ Forall (valid_token 12) (split comma (lit "1-3, 5"))).
Proof.
  apply (handleRangeChange_error_iff (lit "1-3, 5") (mkState 12 [] None)).
  reflexivity.
Defined.

Section SplitExtras.

Lemma split_concat (sep : Z) (s r : jsstring) :
  split sep (s ++ sep :: r) = split sep s ++ split sep r.
Proof.
  induction s as [|c s IH]; cbn [app split].
  - now rewrite Z.eqb_refl.
  - destruct (c =? sep); rewrite IH; [reflexivity|].
    pose proof (split_not_nil sep s) as Hne.
    destruct (split sep s) as [|t ts]; [congruence|reflexivity].
Qed.

Lemma split_prepend (sep : Z) (l s : jsstring) :
  includes sep l = false ->
  split sep (l ++ s)
  = match split sep s with
    | t :: ts => (l ++ t) :: ts
    | [] => [l]
    end.
Proof.
  unfold includes. induction l as [|c l IH]; cbn [app existsb split].
  - intros _. pose proof (split_not_nil sep s).
    destruct (split sep s); [congruence|reflexivity].
  - intros H. apply orb_false_elim in H as [Hc Hl].
    rewrite Z.eqb_sym, Hc, (IH Hl).
    pose proof (split_not_nil sep s).
    destruct (split sep s); [congruence|reflexivity].
Qed.

Lemma split_append (sep : Z) (s r : jsstring) :
  includes sep r = false ->
  split sep (s ++ r) = app_last r (split sep s).
Proof.
  intros Hr. induction s as [|c s IH]; cbn [app split].
  - now rewrite split_no_sep.
  - pose proof (split_not_nil sep s) as Hne. rewrite IH.
    destruct (c =? sep).
    + destruct (split sep s) as [|t ts]; [congruence|reflexivity].
    + destruct (split sep s) as [|t [|u ts]]; [congruence| |]; reflexivity.
Qed.

Lemma trimStart_app_r (s r : jsstring) :
  trimStart s <> [] -> trimStart (s ++ r) = trimStart s ++ r.
Proof.
  induction s as [|c s IH]; cbn [trimStart app]; [congruence|].
  destruct (is_ws c); [exact IH|reflexivity].
Qed.

Lemma trimEnd_app_ws (s r : jsstring) :
  all_ws r -> trimEnd (s ++ r) = trimEnd s.
Proof.
  intros Hr. unfold trimEnd. rewrite rev_app_distr, trimStart_app_ws;
    [reflexivity|now apply all_ws_rev].
Qed.

Lemma trim_app_ws_l (l s : jsstring) : all_ws l -> trim (l ++ s) = trim s.
Proof. intros Hl. unfold trim. now rewrite trimStart_app_ws. Qed.

Lemma trim_app_ws_r (s r : jsstring) : all_ws r -> trim (s ++ r) = trim s.
Proof.
  intros Hr. unfold trim.
  destruct (trimStart s) as [|c t] eqn:Hs.
  - apply trimStart_nil_inv in Hs.
    rewrite trimStart_app_ws by exact Hs.
    now rewrite (trimStart_ws r Hr).
  - rewrite trimStart_app_r by (rewrite Hs; discriminate).
    rewrite Hs. now apply trimEnd_app_ws.
Qed.

Lemma map_trim_app_last (r : jsstring) (ts : list jsstring) :
  all_ws r -> map trim (app_last r ts) = map trim ts.
Proof.
  intros Hr. induction ts as [|t [|u ts] IH]; [reflexivity| |].
  - cbn [app_last map]. now rewrite trim_app_ws_r.
  - change (app_last r (t :: u :: ts)) with (t :: app_last r (u :: ts)).
    cbn [map]. cbn [map] in IH. now rewrite IH.
Qed.

Lemma parts_padded (l r s : jsstring) :
  all_ws l -> all_ws r ->
  map trim (split comma (l ++ s ++ r)) = map trim (split comma s).
Proof.
  intros Hl Hr.
  rewrite (split_prepend comma l _ (comma_not_ws l Hl)).
  rewrite (split_append comma s r (comma_not_ws r Hr)).
  pose proof (split_not_nil comma s) as Hne.
  destruct (split comma s) as [|t ts] eqn:E; [congruence|].
  rewrite <- (map_trim_app_last r (t :: ts) Hr).
  destruct (app_last r (t :: ts)) as [|t' ts'] eqn:E'.
  - destruct ts; discriminate.
  - cbn [map]. now rewrite trim_app_ws_l.
Qed.

End SplitExtras.

Section ComposeExtras.

Variable T : Z.

Lemma parseParts_app (A B : list jsstring) :
  parseParts T (A ++ B) []
  = bind (parseParts T A []) (fun r1 =>
      bind (parseParts T B []) (fun r2 => Ok (r1 ++ r2))).
Proof.
  induction A as [|p A IH].
  - cbn [app parseParts bind]. now destruct (parseParts T B []).
  - change ((p :: A) ++ B) with (p :: (A ++ B)).
    rewrite !parseParts_cons, IH.
    destruct (parsePart T p) as [iv|e]; cbn [bind]; [|reflexivity].
    destruct (parseParts T A []) as [r1|e]; cbn [bind]; [|reflexivity].
    now destruct (parseParts T B []).
Qed.

Lemma comma_not_blank (s1 s2 : jsstring) : trim (s1 ++ comma :: s2) <> [].
Proof.
  intros H. apply trim_nil_inv, comma_not_ws in H.
  rewrite includes_app in H. apply orb_false_elim in H as [_ H].
  discriminate.
Qed.

(** White space before and after the whole text changes neither the
    intervals nor the error. *)
Theorem outer_white_space_ignored (l r s : jsstring) :
  all_ws l -> all_ws r ->
  parseRanges T (l ++ s ++ r) = parseRanges T s.
Proof.
  intros Hl Hr. unfold parseRanges.
  rewrite (parts_padded l r s Hl Hr), trim_app_ws_l, trim_app_ws_r
    by assumption.
  reflexivity.
Qed.

(** Parsing two non-blank texts joined by a comma is parsing the first,
    then the second, and appending the intervals; the first error wins. *)
Theorem comma_joins_results (s1 s2 : jsstring) :
  trim s1 <> [] -> trim s2 <> [] ->
  parseRanges T (s1 ++ comma :: s2)
  = bind (parseRanges T s1) (fun r1 =>
      bind (parseRanges T s2) (fun r2 => Ok (r1 ++ r2))).
Proof.
  intros H1 H2.
  rewrite !parseRanges_not_blank by (assumption || apply comma_not_blank).
  now rewrite split_concat, map_app, parseParts_app.
Qed.

(** A comma with nothing but white space before it, or after it at the end
    of an otherwise valid text, is an empty token: the text is rejected
    with the invalid-page message for the empty token. *)
Theorem stray_comma_rejected (w s : jsstring) :
  all_ws w ->
  parseRanges T (w ++ comma :: s) = Throw (InvalidPage [])
  /\ ((exists ivs, parseRanges T s = Ok ivs) ->
      parseRanges T (s ++ comma :: w) = Throw (InvalidPage [])).
Proof.
  intros Hw. split.
  - rewrite parseRanges_not_blank by apply comma_not_blank.
    rewrite split_concat, (split_no_sep comma w (comma_not_ws w Hw)).
    cbn [app map]. rewrite (trim_ws w Hw).
    apply (parseParts_stop T [] _ [] (InvalidPage [])); [constructor|].
    reflexivity.
  - intros (ivs & Hs).
    assert (Hne : trim s <> []).
    { intros Hb. rewrite (parseRanges_blank T s Hb) in Hs. discriminate. }
    rewrite parseRanges_not_blank in Hs by exact Hne.
    rewrite parseRanges_not_blank by apply comma_not_blank.
    rewrite split_concat, map_app, parseParts_app, Hs.
    rewrite (split_no_sep comma w (comma_not_ws w Hw)).
    cbn [map]. rewrite (trim_ws w Hw). reflexivity.
Qed.

(** A token that starts with [-], such as a negative number, is reported
    as an invalid range (not as a non-positive page), wherever it is the
    first invalid token. *)
Theorem leading_dash_invalid_range (s : jsstring) (pre post : list jsstring)
    (tok rest : jsstring) :
  split comma s = pre ++ tok :: post ->
  Forall (valid_token T) pre ->
  trim tok = dash :: rest ->
  parseRanges T s = Throw (InvalidRange (trim tok)).
Proof.
  intros Hsplit Hpre Htok.
  assert (Hne : trim s <> []).
  { intros Hb. pose proof (trim_nil_inv s Hb) as Hws.
    rewrite (split_no_sep comma s (comma_not_ws s Hws)) in Hsplit.
    destruct pre as [|p pre]; [|destruct pre; discriminate].
    injection Hsplit as <- _. congruence. }
  rewrite parseRanges_not_blank, Hsplit, map_app by exact Hne.
  apply parseParts_stop.
  - apply Forall_map. revert Hpre. apply Forall_impl. intros q Hq.
    eexists. now apply parsePart_ok.
  - rewrite Htok. unfold parsePart.
    cbn [includes existsb]. rewrite Z.eqb_refl. cbn [orb split].
    rewrite Z.eqb_refl. reflexivity.
Qed.

End ComposeExtras.

Lemma outer_white_space_ignored_witness :
  parseRanges 12 (lit "  " ++ lit "1-3, 5" ++ lit " ")
  = parseRanges 12 (lit "1-3, 5").
Proof.
  apply (outer_white_space_ignored 12 (lit "  ") (lit " ") (lit "1-3, 5"));
    reflexivity.
Defined.

Lemma comma_joins_results_witness :
  parseRanges 12 (lit "1-3" ++ comma :: lit " 5, 7-10")
  = bind (parseRanges 12 (lit "1-3")) (fun r1 =>
      bind (parseRanges 12 (lit " 5, 7-10")) (fun r2 => Ok (r1 ++ r2))).
Proof.
  apply (comma_joins_results 12 (lit "1-3") (lit " 5, 7-10")); discriminate.
Defined.

Lemma stray_comma_rejected_witness :
  parseRanges 12 (lit " " ++ comma :: lit "1-3") = Throw (InvalidPage [])
  /\ ((exists ivs, parseRanges 12 (lit "1-3") = Ok ivs) ->
      parseRanges 12 (lit "1-3" ++ comma :: lit " ") = Throw (InvalidPage [])).
Proof.
  apply (stray_comma_rejected 12 (lit " ") (lit "1-3")). reflexivity.
Defined.

Lemma leading_dash_invalid_range_witness :
  parseRanges 12 (lit "2, -3, 4") = Throw (InvalidRange (trim (lit " -3"))).
Proof.
  apply (leading_dash_invalid_range 12 (lit "2, -3, 4")
           [lit "2"] [lit " 4"] (lit " -3") (lit "3")).
  - reflexivity.
  - repeat constructor.
  - reflexivity.
Defined.

(** ** The output documents of the splitter *)

Section SplitterOutputs.

Lemma pageIndices_loop_spec (fuel : nat) :
  forall (a b : Z) (acc : list Z),
    pageIndices_loop fuel a b acc
    = acc ++ map (fun i => a - 1 + Z.of_nat i)
               (seq 0 (Nat.min fuel (Z.to_nat (b + 1 - a)))).
Proof.
  induction fuel as [|f IH]; intros a b acc; cbn [pageIndices_loop].
  - now rewrite app_nil_r.
  - destruct (Z.leb_spec a b) as [Hle|Hgt].
    + rewrite IH.
      replace (Z.to_nat (b + 1 - a)) with (S (Z.to_nat (b + 1 - (a + 1))))
        by lia.
      cbn [Nat.min seq map]. rewrite <- seq_shift, map_map, <- app_assoc.
      cbn [app]. f_equal. f_equal; [lia|].
      apply map_ext. intros i. lia.
    + replace (Z.to_nat (b + 1 - a)) with 0%nat by lia.
      rewrite Nat.min_0_r. cbn. now rewrite app_nil_r.
Qed.

(** The loop stops by its own test: more steps than the number of pages of
    the range change nothing. *)
Lemma pageIndices_loop_enough (fuel : nat) (a b : Z) :
  (Z.to_nat (b + 1 - a) <= fuel)%nat ->
  pageIndices_loop fuel a b [] = pageIndices (Int a) (Int b).
Proof.
  intros H. unfold pageIndices. rewrite !pageIndices_loop_spec.
  now rewrite Nat.min_id, Nat.min_r.
Qed.

Lemma pageIndices_spec (a b : Z) :
  pageIndices (Int a) (Int b)
  = map (fun i => a - 1 + Z.of_nat i) (seq 0 (Z.to_nat (b + 1 - a))).
Proof.
  unfold pageIndices. rewrite pageIndices_loop_spec. now rewrite Nat.min_id.
Qed.

Lemma parse_ok_intervals (T : Z) (s : jsstring) (ivs : list interval) :
  parseRanges T s = Ok ivs ->
  Forall (fun iv => exists a b, iv = (Int a, Int b)
                      /\ 1 <= a /\ a <= b /\ b <= T) ivs.
Proof.
  intros H. apply parse_ok_inv in H as [Hall ->].
  apply Forall_map. revert Hall. apply Forall_impl. intros tok Htok.
  now apply valid_interval.
Qed.

Lemma splitPDF_eq (file : File) (library_ok : bool) (st : State) :
  splitPDF (Some file) library_ok st
  = match parseRanges (totalPages st) (splitRanges st) with
    | Ok ranges =>
        (setRangeError None st,
         if library_ok then Some (map (splitOne file) ranges) else None)
    | Throw e => (setRangeError (Some e) st, None)
    end.
Proof.
  unfold splitPDF, validateRanges.
  destruct (parseRanges (totalPages st) (splitRanges st));
    [destruct library_ok|]; reflexivity.
Qed.


(** Every output document of [splitPDF] copies the pages [start - 1], ...,
    [end - 1] of an interval with [1 <= start <= end <= totalPages]: the
    list of page indices is never empty and every index is a page of the
    document. *)
Theorem splitPDF_indices_in_document (file : File) (library_ok : bool)
    (st : State) (outs : list SplitPDF) :
  snd (splitPDF (Some file) library_ok st) = Some outs ->
  Forall (fun o =>
            exists a b,
              1 <= a /\ a <= b /\ b <= totalPages st
              /\ sp_indices o
                 = map (fun i => a - 1 + Z.of_nat i)
                     (seq 0 (Z.to_nat (b + 1 - a)))
              /\ sp_indices o <> []
              /\ Forall (fun i => 0 <= i < totalPages st) (sp_indices o))
    outs.
Proof.
  rewrite splitPDF_eq.
  destruct (parseRanges (totalPages st) (splitRanges st)) as [ivs|e] eqn:Hp;
    [|discriminate].
  cbn [snd]. destruct library_ok; [|discriminate].
  intros [= <-]. apply Forall_map.
  apply parse_ok_intervals in Hp. revert Hp. apply Forall_impl.
  intros iv (a & b & -> & H1 & Hab & HbT). exists a, b.
  cbn [splitOne sp_indices]. rewrite pageIndices_spec.
  repeat split; try assumption.
  - replace (Z.to_nat (b + 1 - a)) with (S (Z.to_nat (b - a))) by lia.
    discriminate.
  - apply Forall_map, Forall_forall. intros i Hi. apply in_seq in Hi. lia.
Qed.

Lemma splitPDF_indices_in_document_witness :
  Forall (fun o =>
            exists a b,
              1 <= a /\ a <= b /\ b <= 12
              /\ sp_indices o
                 = map (fun i => a - 1 + Z.of_nat i)
                     (seq 0 (Z.to_nat (b + 1 - a)))
              /\ sp_indices o <> []
              /\ Forall (fun i => 0 <= i < 12) (sp_indices o))
    (map (splitOne (mkFile (lit "a.pdf") pdf_type 10))
       [(Int 1, Int 3); (Int 5, Int 5)]).
Proof.
  apply (splitPDF_indices_in_document (mkFile (lit "a.pdf") pdf_type 10)
           true (mkState 12 (lit "1-3, 5") None)).
  reflexivity.
Defined.

End SplitterOutputs.

Section OutputNames.

Lemma chars_inj (ds1 ds2 : list Z) : chars ds1 = chars ds2 -> ds1 = ds2.
Proof.
  revert ds2. induction ds1 as [|d ds1 IH]; intros [|d2 ds2] H;
    try discriminate; [reflexivity|].
  assert (Hd : 48 + d = 48 + d2) by exact (f_equal (hd 0) H).
  assert (Hr : chars ds1 = chars ds2) by exact (f_equal (@tl Z) H).
  assert (d = d2) as -> by lia. f_equal. now apply IH.
Qed.

(** The decimal notation determines the integer. *)
Lemma toString_inj (a c : Z) :
  0 <= a -> 0 <= c -> toString a = toString c -> a = c.
Proof.
  intros Ha Hc. unfold toString.
  replace (a <? 0) with false by (symmetry; apply Z.ltb_ge; lia).
  replace (c <? 0) with false by (symmetry; apply Z.ltb_ge; lia).
  destruct (decimal_spec a Ha) as (ds1 & -> & _ & _ & <-).
  destruct (decimal_spec c Hc) as (ds2 & -> & _ & _ & <-).
  intros H. now rewrite (chars_inj _ _ H).
Qed.

Lemma range_text_inj (a b c d : Z) :
  0 <= a -> 0 <= b -> 0 <= c -> 0 <= d ->
  toString a ++ dash :: toString b = toString c ++ dash :: toString d ->
  a = c /\ b = d.
Proof.
  intros Ha Hb Hc Hd H. apply (f_equal (split dash)) in H.
  rewrite !split_app in H by now apply toString_includes.
  rewrite !split_no_sep in H by now apply toString_includes.
  injection H as H1 H2. split; now apply toString_inj.
Qed.

Lemma pagesDescription_inj (a b c d : Z) :
  0 <= a -> 0 <= b -> 0 <= c -> 0 <= d ->
  pagesDescription (Int a) (Int b) = pagesDescription (Int c) (Int d) ->
  a = c /\ b = d.
Proof.
  intros Ha Hb Hc Hd. unfold pagesDescription, strict_eq, number_toString.
  destruct (Z.eqb_spec a b) as [Eab|Nab], (Z.eqb_spec c d) as [Ecd|Ncd];
    intros H; do 2 apply app_inv_head in H.
  - apply app_inv_head in H. apply toString_inj in H; lia.
  - revert H. generalize (toString a).
    generalize (toString c ++ lit "-" ++ toString d).
    intros X Y H. cbv in H. discriminate.
  - revert H. generalize (toString c).
    generalize (toString a ++ lit "-" ++ toString b).
    intros X Y H. cbv in H. discriminate.
  - apply app_inv_head in H. now apply range_text_inj.
Qed.

(** Two output documents of the same file get the same name only when they
    come from the same interval. *)
Theorem output_names_distinct (file : File) (a b c d : Z) :
  0 <= a -> 0 <= b -> 0 <= c -> 0 <= d ->
  sp_name (splitOne file (Int a, Int b))
  = sp_name (splitOne file (Int c, Int d)) ->
  a = c /\ b = d.
Proof.
  intros Ha Hb Hc Hd H. cbn [splitOne sp_name] in H.
  do 2 apply app_inv_head in H. apply app_inv_tail in H.
  now apply pagesDescription_inj.
Qed.

Lemma output_names_distinct_witness : 2 = 2 /\ 4 = 4.
Proof.
  apply (output_names_distinct (mkFile (lit "a.pdf") pdf_type 10) 2 4 2 4);
    try lia.
  reflexivity.
Defined.

Lemma starts_with_head (p c : Z) (ps s : jsstring) :
  p <> c -> starts_with (p :: ps) (c :: s) = false.
Proof. intros H. cbn. now replace (p =? c) with false
  by (symmetry; now apply Z.eqb_neq). Qed.

Lemma starts_with_app (pat s : jsstring) : starts_with pat (pat ++ s) = true.
Proof.
  induction pat as [|p pat IH]; [reflexivity|].
  cbn. now rewrite Z.eqb_refl, IH.
Qed.

Lemma skipn_app_exact (pat s : jsstring) :
  skipn (List.length pat) (pat ++ s) = s.
Proof. induction pat; [reflexivity|assumption]. Qed.

Lemma remove_first_absent (pat s : jsstring) :
  contains pat s = false -> remove_first pat s = s.
Proof.
  induction s as [|c s IH]; [reflexivity|].
  cbn [contains remove_first]. intros H.
  apply orb_false_elim in H as [H1 H2]. now rewrite H1, IH.
Qed.

(** The name given to an output drops the first [.pdf] of the file name,
    which is the extension when nothing before it contains a dot; what
    follows that first [.pdf] is kept. *)
Theorem base_name_drops_first_pdf (base rest : jsstring) :
  includes 46 base = false ->
  remove_first (lit ".pdf") (base ++ lit ".pdf" ++ rest) = base ++ rest.
Proof.
  unfold includes. induction base as [|c base IH]; intros H.
  - cbn [app]. destruct rest; reflexivity.
  - cbn [existsb] in H. apply orb_false_elim in H as [Hc Hb].
    apply Z.eqb_neq in Hc.
    change ((c :: base) ++ lit ".pdf" ++ rest)
      with (c :: (base ++ lit ".pdf" ++ rest)).
    cbn [remove_first].
    change (lit ".pdf") with (46 :: lit "pdf") at 1.
    rewrite (starts_with_head 46 c _ _ Hc). cbn [app]. f_equal. now apply IH.
Qed.

Lemma base_name_drops_first_pdf_witness :
  remove_first (lit ".pdf") (lit "scan" ++ lit ".pdf" ++ lit "s.pdf")
  = lit "scan" ++ lit "s.pdf".
Proof.
  apply (base_name_drops_first_pdf (lit "scan") (lit "s.pdf")). reflexivity.
Defined.

End OutputNames.

(** ** File selection in the compressor *)

Section Compressor.

Variable files : list PDFFile.

Lemma validateFiles_loop_filter (selected : list File) :
  forall totalSize validFiles alerts,
  exists n,
    fst (validateFiles_loop files selected totalSize validFiles alerts)
    = validFiles ++ filter (acceptable files) (firstn n selected).
Proof.
  induction selected as [|f rest IH]; intros tot valid alerts.
  - exists 0%nat. cbn. now rewrite app_nil_r.
  - cbn [validateFiles_loop]. unfold acceptable.
    destruct (str_eqb (file_type f) pdf_type) eqn:Ht; cbn [negb].
    + destruct (already_listed files f) eqn:Hl.
      * destruct (IH tot valid (alerts ++ [AlreadyListed (file_name f)]))
          as (n & ->).
        exists (S n). cbn [firstn filter]. now rewrite Ht, Hl.
      * destruct (maxTotalSize <? tot + file_size f).
        -- exists 0%nat. cbn. now rewrite app_nil_r.
        -- destruct (IH (tot + file_size f) (valid ++ [f]) alerts) as (n & ->).
           exists (S n). cbn [firstn filter]. rewrite Ht, Hl. cbn [andb negb].
           now rewrite <- app_assoc.
    + destruct (IH tot valid (alerts ++ [NotPdf (file_name f)])) as (n & ->).
      exists (S n). cbn [firstn filter]. now rewrite Ht.
Qed.

(** The files accepted by [validateFiles] are, in their order of selection,
    the PDF files not already listed among some first files of the
    selection. *)
Theorem accepted_files_filtered (selected : list File) :
  exists n,
    fst (validateFiles files selected)
    = filter (acceptable files) (firstn n selected).
Proof.
  unfold validateFiles.
  destruct (validateFiles_loop_filter selected (totalOriginalSize files) [] [])
    as (n & H).
  exists n. exact H.
Qed.

Lemma validateFiles_loop_size (selected : list File) :
  forall totalSize validFiles alerts,
  exists added,
    fst (validateFiles_loop files selected totalSize validFiles alerts)
    = validFiles ++ added
    /\ (added = [] \/ totalSize + total_size added <= maxTotalSize).
Proof.
  induction selected as [|f rest IH]; intros tot valid alerts.
  - exists []. cbn. rewrite app_nil_r. auto.
  - cbn [validateFiles_loop].
    destruct (negb (str_eqb (file_type f) pdf_type)); [apply IH|].
    destruct (already_listed files f); [apply IH|].
    destruct (Z.ltb_spec maxTotalSize (tot + file_size f)) as [Hgt|Hle].
    + exists []. cbn. rewrite app_nil_r. auto.
    + destruct (IH (tot + file_size f) (valid ++ [f]) alerts)
        as (added & -> & Hs).
      exists (f :: added). rewrite <- app_assoc. split; [reflexivity|].
      right. cbn [total_size fold_right]. fold (total_size added).
      destruct Hs as [->|Hs]; [change (total_size []) with 0|]; lia.
Qed.

Lemma fold_left_sizes (l : list PDFFile) (a : Z) :
  fold_left (fun sum file => sum + originalSize file) l a
  = a + totalOriginalSize l.
Proof.
  unfold totalOriginalSize. revert a.
  induction l as [|f l IH]; intros a; cbn [fold_left]; [lia|].
  rewrite (IH (a + originalSize f)), (IH (0 + originalSize f)). lia.
Qed.

Lemma totalOriginalSize_app (l1 l2 : list PDFFile) :
  totalOriginalSize (l1 ++ l2) = totalOriginalSize l1 + totalOriginalSize l2.
Proof.
  unfold totalOriginalSize at 1. rewrite fold_left_app.
  now rewrite fold_left_sizes.
Qed.

Lemma built_sizes (valid : list File) (news : list PDFFile) :
  Forall2 built_from valid news -> totalOriginalSize news = total_size valid.
Proof.
  induction 1 as [|f e valid news (id & pv & ->) _ IH]; [reflexivity|].
  change (newPDFFile id pv f :: news) with ([newPDFFile id pv f] ++ news).
  rewrite totalOriginalSize_app, IH. cbn [total_size fold_right].
  fold (total_size valid). unfold totalOriginalSize. cbn. lia.
Qed.

(** A list within the limit of 500 MB stays within it when the files
    accepted by [validateFiles] are added to it, as [handleFileSelect]
    does. *)
Theorem selection_keeps_size_limit (selected : list File)
    (news : list PDFFile) :
  totalOriginalSize files <= maxTotalSize ->
  Forall2 built_from (fst (validateFiles files selected)) news ->
  totalOriginalSize (files ++ news) <= maxTotalSize.
Proof.
  intros Hlim Hnews. rewrite totalOriginalSize_app, (built_sizes _ _ Hnews).
  unfold validateFiles.
  destruct (validateFiles_loop_size selected (totalOriginalSize files) [] [])
    as (added & -> & Hs).
  cbn [app fst]. destruct Hs as [->|Hs]; [change (total_size []) with 0|];
    lia.
Qed.

Lemma validateFiles_loop_prefix (pre : list File) :
  forall totalSize validFiles alerts,
  exists added,
    fst (validateFiles_loop files pre totalSize validFiles alerts)
    = validFiles ++ added
    /\ forall suffix,
         fst (validateFiles_loop files (pre ++ suffix) totalSize validFiles
                alerts)
         = validFiles ++ added
         \/ exists alerts',
              validateFiles_loop files (pre ++ suffix) totalSize validFiles
                alerts
              = validateFiles_loop files suffix
                  (totalSize + total_size added) (validFiles ++ added)
                  alerts'.
Proof.
  induction pre as [|f rest IH]; intros tot valid alerts.
  - exists []. cbn [app validateFiles_loop fst]. rewrite app_nil_r.
    split; [reflexivity|]. intros suffix. right. exists alerts.
    cbn. now rewrite Z.add_0_r.
  - cbn [app validateFiles_loop].
    destruct (negb (str_eqb (file_type f) pdf_type)); [apply IH|].
    destruct (already_listed files f); [apply IH|].
    destruct (maxTotalSize <? tot + file_size f).
    + exists []. cbn [fst]. rewrite app_nil_r. split; [reflexivity|].
      intros suffix. now left.
    + destruct (IH (tot + file_size f) (valid ++ [f]) alerts)
        as (added & E & Hsuf).
      exists (f :: added). rewrite E, <- app_assoc. split; [reflexivity|].
      intros suffix. destruct (Hsuf suffix) as [H|(alerts' & H)].
      * left. now rewrite H, <- app_assoc.
      * right. exists alerts'. rewrite H. cbn [total_size fold_right].
        fold (total_size added). rewrite <- app_assoc. cbn [app].
        f_equal. lia.
Qed.

(** The selection stops at the first acceptable file that would take the
    total above 500 MB: no file selected after it is accepted, even one
    that would fit. *)
Theorem selection_stops_at_limit (pre post : list File) (f : File) :
  acceptable files f = true ->
  maxTotalSize
  < totalOriginalSize files + total_size (fst (validateFiles files pre))
    + file_size f ->
  fst (validateFiles files (pre ++ f :: post))
  = fst (validateFiles files pre).
Proof.
  unfold validateFiles. intros Hacc Hbig.
  destruct (validateFiles_loop_prefix pre (totalOriginalSize files) [] [])
    as (added & E & Hsuf).
  rewrite E in Hbig |- *. cbn [app] in Hbig |- *.
  destruct (Hsuf (f :: post)) as [H|(alerts' & H)]; [exact H|].
  rewrite H. cbn [validateFiles_loop app].
  unfold acceptable in Hacc. apply andb_prop in Hacc as [Ht Hl].
  rewrite Ht. apply negb_true_iff in Hl. rewrite Hl. cbn [negb].
  now replace (maxTotalSize <? totalOriginalSize files + total_size added
                               + file_size f)
    with true by (symmetry; apply Z.ltb_lt; lia).
Qed.

End Compressor.

Lemma selection_keeps_size_limit_witness :
  totalOriginalSize
    ([] ++ [newPDFFile (lit "k3") None (mkFile (lit "a.pdf") pdf_type 100)])
  <= maxTotalSize.
Proof.
  apply (selection_keeps_size_limit []
           [mkFile (lit "a.pdf") pdf_type 100; mkFile (lit "b.txt") [] 7]).
  - vm_compute. discriminate.
  - repeat constructor. exists (lit "k3"), None. reflexivity.
Defined.

Lemma selection_stops_at_limit_witness :
  fst (validateFiles []
         ([mkFile (lit "a.pdf") pdf_type 100]
          ++ mkFile (lit "big.pdf") pdf_type 600000000
             :: [mkFile (lit "c.pdf") pdf_type 5]))
  = fst (validateFiles [] [mkFile (lit "a.pdf") pdf_type 100]).
Proof.
  apply (selection_stops_at_limit []
           [mkFile (lit "a.pdf") pdf_type 100]
           [mkFile (lit "c.pdf") pdf_type 5]
           (mkFile (lit "big.pdf") pdf_type 600000000)).
  - reflexivity.
  - vm_compute. reflexivity.
Defined.

Section Duplicates.

Lemma str_eqb_refl (a : jsstring) : str_eqb a a = true.
Proof. unfold str_eqb. now destruct (list_eq_dec Z.eq_dec a a). Qed.

Lemma str_eqb_neq (a b : jsstring) : a <> b -> str_eqb a b = false.
Proof. unfold str_eqb. now destruct (list_eq_dec Z.eq_dec a b). Qed.

Lemma starts_with_split (pat s : jsstring) :
  starts_with pat s = true -> s = pat ++ skipn (List.length pat) s.
Proof.
  revert s. induction pat as [|p pat IH]; intros s; [reflexivity|].
  destruct s as [|c s]; [discriminate|]. cbn [starts_with].
  intros H. apply andb_prop in H as [Hp Hs]. apply Z.eqb_eq in Hp. subst c.
  cbn [List.length skipn app]. f_equal. now apply IH.
Qed.

Lemma remove_first_length (pat s : jsstring) :
  contains pat s = true ->
  (List.length (remove_first pat s) + List.length pat = List.length s)%nat.
Proof.
  induction s as [|c s IH].
  - cbn [contains]. destruct pat; [reflexivity|discriminate].
  - cbn [contains remove_first].
    destruct (starts_with pat (c :: s)) eqn:Hs.
    + intros _. apply starts_with_split in Hs.
      rewrite Hs at 2. rewrite length_app. lia.
    + cbn [orb]. intros H. cbn [List.length]. rewrite <- (IH H). lia.
Qed.

Lemma own_entry_listed (f : File) (id : jsstring)
    (preview : option jsstring) :
  already_listed [newPDFFile id preview f] f
  = negb (contains (lit ".pdf") (file_name f)).
Proof.
  unfold already_listed. cbn [existsb newPDFFile pf_name originalSize].
  rewrite Z.eqb_refl, andb_true_r, orb_false_r.
  destruct (contains (lit ".pdf") (file_name f)) eqn:Hc; cbn [negb].
  - apply str_eqb_neq. intros E. apply remove_first_length in Hc.
    rewrite E in Hc. cbn in Hc. lia.
  - rewrite (remove_first_absent _ _ Hc). apply str_eqb_refl.
Qed.

Lemma already_listed_app (l1 l2 : list PDFFile) (f : File) :
  already_listed (l1 ++ l2) f = already_listed l1 f || already_listed l2 f.
Proof. unfold already_listed. apply existsb_app. Qed.

(** The duplicate test compares the stored name, from which the first
    [.pdf] has been removed, with the full name of the selected file.  For
    a list that contains the entry built from a PDF file: selecting the
    file again is refused as already listed when its name does not contain
    [.pdf]; when it does, its own entry never matches, so the file is
    refused as already listed only if another entry has its full name and
    size, refused by the limit if the total would exceed 500 MB, and
    otherwise accepted a second time. *)
Theorem reselected_file (pre post : list PDFFile) (f : File)
    (id : jsstring) (preview : option jsstring) :
  str_eqb (file_type f) pdf_type = true ->
  validateFiles (pre ++ newPDFFile id preview f :: post) [f]
  = if contains (lit ".pdf") (file_name f) then
      if already_listed (pre ++ post) f
        then ([], [AlreadyListed (file_name f)])
      else if maxTotalSize
              <? totalOriginalSize (pre ++ newPDFFile id preview f :: post)
                 + file_size f
        then ([], [LimitExceeded])
      else ([f], [])
    else ([], [AlreadyListed (file_name f)]).
Proof.
  intros Ht. unfold validateFiles. cbn [validateFiles_loop].
  rewrite Ht. cbn [negb].
  change (pre ++ newPDFFile id preview f :: post)
    with (pre ++ [newPDFFile id preview f] ++ post).
  rewrite !already_listed_app, own_entry_listed.
  destruct (contains (lit ".pdf") (file_name f)); cbn [negb].
  - rewrite orb_false_l.
    destruct (already_listed pre f || already_listed post f);
      [reflexivity|].
    now destruct (maxTotalSize
                  <? totalOriginalSize
                       (pre ++ [newPDFFile id preview f] ++ post)
                     + file_size f).
  - now rewrite orb_true_l, orb_true_r.
Qed.

Lemma reselected_file_witness :
  validateFiles
    ([] ++ newPDFFile (lit "k3") None (mkFile (lit "a.pdf") pdf_type 100)
     :: [])
    [mkFile (lit "a.pdf") pdf_type 100]
  = ([mkFile (lit "a.pdf") pdf_type 100], []).
Proof.
  apply (reselected_file [] [] (mkFile (lit "a.pdf") pdf_type 100)
           (lit "k3") None).
  reflexivity.
Defined.

End Duplicates.

(** ** Size labels *)

Section SizeLabels.

Lemma tenths_bounds (num den : Z) :
  0 < den ->
  - den < 2 * (den * tenths num den - 10 * num) <= den.
Proof.
  intros Hden. unfold tenths.
  pose proof (Z.div_mod (20 * num + den) (2 * den) ltac:(lia)) as Hdm.
  pose proof (Z.mod_pos_bound (20 * num + den) (2 * den) ltac:(lia)) as Hm.
  lia.
Qed.

(** From 1 KB on, the label shows the size in the unit of the label
    rounded to one decimal: the number shown is at least 1.0 and differs
    from the exact quotient by at most 0.05. *)
Theorem formatFileSize_accuracy (bytes : Z) :
  1024 <= bytes ->
  let unit := if bytes <? 1024 * 1024 then 1024 else 1024 * 1024 in
  exists n,
    formatFileSize bytes
    = toString (n / 10) ++ lit "." ++ toString (n mod 10)
      ++ (if bytes <? 1024 * 1024 then lit " KB" else lit " MB")
    /\ 10 <= n
    /\ - unit < 2 * (unit * n - 10 * bytes) <= unit.
Proof.
  intros Hb unit. unfold formatFileSize.
  replace (bytes <? 1024) with false by (symmetry; apply Z.ltb_ge; lia).
  subst unit. destruct (Z.ltb_spec bytes (1024 * 1024)) as [Hlt|Hge].
  - exists (tenths bytes 1024). unfold toFixed1. rewrite <- !app_assoc.
    split; [reflexivity|].
    pose proof (tenths_bounds bytes 1024 ltac:(lia)). lia.
  - exists (tenths bytes (1024 * 1024)). unfold toFixed1.
    rewrite <- !app_assoc. split; [reflexivity|].
    pose proof (tenths_bounds bytes (1024 * 1024) ltac:(lia)). lia.
Qed.

Lemma formatFileSize_accuracy_witness :
  let unit := if 1536 <? 1024 * 1024 then 1024 else 1024 * 1024 in
  exists n,
    formatFileSize 1536
    = toString (n / 10) ++ lit "." ++ toString (n mod 10)
      ++ (if 1536 <? 1024 * 1024 then lit " KB" else lit " MB")
    /\ 10 <= n
    /\ - unit < 2 * (unit * n - 10 * 1536) <= unit.
Proof. apply (formatFileSize_accuracy 1536). lia. Defined.

(** The last 51 byte counts below 1 MB are labelled [1024.0 KB]: the unit
    changes at 1048576 bytes, the rounding at 1048525. *)
Theorem formatFileSize_below_megabyte (bytes : Z) :
  1048525 <= bytes < 1048576 ->
  formatFileSize bytes = lit "1024.0 KB".
Proof.
  intros [Hlo Hhi]. unfold formatFileSize.
  replace (bytes <? 1024) with false by (symmetry; apply Z.ltb_ge; lia).
  replace (bytes <? 1024 * 1024) with true by (symmetry; apply Z.ltb_lt; lia).
  unfold toFixed1.
  replace (tenths bytes 1024) with 10240; [reflexivity|].
  unfold tenths.
  apply Z.div_unique with (r := 20 * bytes + 1024 - 2 * 1024 * 10240); lia.
Qed.

Lemma formatFileSize_below_megabyte_witness :
  formatFileSize 1048575 = lit "1024.0 KB".
Proof. apply (formatFileSize_below_megabyte 1048575). lia. Defined.

End SizeLabels.

(** ** Instances *)

Lemma rendered_tokens_parse_witness :
  parseRanges 12
    (join (lit " " ++ comma :: lit " ")
       (map render [Range 1 3; Page 5; Range 7 10]))
  = Ok (map denote [Range 1 3; Page 5; Range 7 10]).
Proof.
  apply (rendered_tokens_parse 12 (lit " ") (lit " ")
           [Range 1 3; Page 5; Range 7 10]).
  - reflexivity.
  - reflexivity.
  - reflexivity.
  - discriminate.
  - repeat constructor; cbn; lia.
Defined.


